(** * The off-normal alarm of node-opcua: a shallow embedding

    Source: the alarm module that defines [UAOffNormalAlarm] and
    [UASystemOffNormalAlarm] (constructor functions, prototype methods and
    the static [instantiate]).

    The alarm object ([this]) is a record that the prototype methods pass
    along explicitly; a method is a function from the object to a completion
    (normal return or thrown exception) and the object afterwards.  The
    address space holds the value-bearing nodes, the alarm objects and the
    installed "value_changed" listeners. *)

From Stdlib Require Import ZArith String List Bool Lia.
From Stdlib Require Import Floats.SpecFloat.
From stdpp Require Import base option gmap strings.
Import ListNotations.

Local Open Scope string_scope.

(** ** JavaScript values and [===] *)

Module Js.

(** The values a variant can carry.  Numbers are IEEE-754 doubles; objects
    (arrays, NodeId, Date, LocalizedText, ...) are known by their
    reference only, which is all that [===] looks at. *)
Inductive Value :=
| undefined
| null
| boolean (b : bool)
| number (f : spec_float)
| str (s : string)
| object (ref : N).

(** The type tag that [===] compares first. *)
Inductive Tag := TUndefined | TNull | TBoolean | TNumber | TString | TObject.

Definition typeOf (v : Value) : Tag :=
  match v with
  | undefined => TUndefined
  | null => TNull
  | boolean _ => TBoolean
  | number _ => TNumber
  | str _ => TString
  | object _ => TObject
  end.

(** [v1 === v2]: no conversion between types; numbers by IEEE equality
    (NaN differs from itself, +0 equals -0), strings by content, objects
    by reference. *)
Definition strictEquals (v1 v2 : Value) : bool :=
  match v1, v2 with
  | undefined, undefined => true
  | null, null => true
  | boolean b1, boolean b2 => Bool.eqb b1 b2
  | number f1, number f2 => SFeqb f1 f2
  | str s1, str s2 => String.eqb s1 s2
  | object r1, object r2 => N.eqb r1 r2
  | _, _ => false
  end.

(** ToBoolean, as used by [||]. *)
Definition truthy (v : Value) : bool :=
  match v with
  | undefined | null => false
  | boolean b => b
  | number (S754_zero _) | number S754_nan => false
  | number _ => true
  | str s => negb (String.eqb s "")
  | object _ => true
  end.

(** The double nearest to an integer (exact below 2^53). *)
Definition ofZ (z : Z) : Value := number (binary_normalize 53 1024 z 0 false).

End Js.

(** ** Completions and methods *)

Inductive Exception :=
| Error (message : string)
| AssertionError (message : string)
| TypeError (message : string).

Inductive Completion (R : Type) :=
| Normal (r : R)
| Throw (e : Exception).
Arguments Normal {R} r.
Arguments Throw {R} e.

(** A piece of code running against a mutable state [S]: it completes and
    leaves a state behind.  A thrown exception keeps the mutations made
    before the throw. *)
Definition Method (S R : Type) : Type := S -> Completion R * S.

Definition ret {S R} (r : R) : Method S R := fun s => (Normal r, s).
Definition throw {S R} (e : Exception) : Method S R := fun s => (Throw e, s).
Definition bind {S A B} (m : Method S A) (k : A -> Method S B) : Method S B :=
  fun s =>
    match m s with
    | (Normal a, s') => k a s'
    | (Throw e, s') => (Throw e, s')
    end.
Definition gets {S R} (f : S -> R) : Method S R := fun s => (Normal (f s), s).
Definition modify {S} (f : S -> S) : Method S unit := fun s => (Normal tt, f s).

(** Modelled from the spec: [assert] of node-opcua-assert is not part of the
    sources at hand.  Section 7: a failed precondition is "fatal, aborts";
    [assert(cond, message)] throws when [cond] is falsy. *)
Definition assert {S} (cond : bool) (message : string) : Method S unit :=
  if cond then ret tt else throw (AssertionError message).

Notation "'let*' x ':=' m 'in' k" := (bind m (fun x => k))
  (at level 10, x name, m at level 100, k at level 200).
Notation "m ';;' k" := (bind m (fun _ => k))
  (at level 100, k at level 200, right associativity).

Definition completed {R S} (r : Completion R * S) : bool :=
  match fst r with Normal _ => true | Throw _ => false end.

(** ** Data values *)

Definition NodeId := N.

(** Modelled from the spec: the status codes of node-opcua-status-code are
    not part of the sources at hand.  Section 3: a value carries "a quality
    flag (good/not-good)".  The handlers compare a code with [!==] against
    the constant [StatusCodes.Good]; a code is its 32-bit number. *)
Definition StatusCode := N.

Module StatusCodes.
Definition Good : StatusCode := 0%N.
Definition GoodClamped : StatusCode := 0x00300000%N.
Definition UncertainLastUsableValue : StatusCode := 0x40900000%N.
Definition BadWaitingForInitialData : StatusCode := 0x80320000%N.
End StatusCodes.

Module DataType.
(** Modelled from the spec: the [DataType] enumeration of node-opcua-variant
    is not part of the sources at hand.  Section 4.2: a value update says
    whether its data type is null ("dataTypeIsNull").  These are the
    built-in types of a variant. *)
Inductive t :=
| Null | Boolean | SByte | Byte | Int16 | UInt16 | Int32 | UInt32
| Int64 | UInt64 | Float | Double | String | DateTime | Guid | ByteString
| XmlElement | NodeId | ExpandedNodeId | StatusCode | QualifiedName
| LocalizedText | ExtensionObject | DataValue | Variant | DiagnosticInfo.

#[global] Instance eq_dec : EqDecision t.
Proof. solve_decision. Defined.
End DataType.

Module Variant.
Record t := mk { dataType : DataType.t; value : Js.Value }.
End Variant.

Module DataValue.
Record t := mk { statusCode : StatusCode; value : Variant.t }.

Definition good (dataType : DataType.t) (v : Js.Value) : t :=
  mk StatusCodes.Good (Variant.mk dataType v).
End DataValue.

(** ** The alarm object *)

(** What [_signalNewCondition] hands to the condition framework. *)
Record ConditionEvent := mkEvent {
  transitionName : string;
  isActive : bool;
  message : string }.

(** The constructor functions of the inheritance chain. *)
Inductive Class := UADiscreteAlarm | UAOffNormalAlarm | UASystemOffNormalAlarm.

#[global] Instance Class_eq_dec : EqDecision Class.
Proof. solve_decision. Defined.

Record Alarm := mkAlarm {
  proto : Class;                    (* the prototype of the object *)
  typeDefinition : string;          (* the alarm type it was built for *)
  activeState : bool;               (* activeState.getValue() *)
  normalState : option NodeId;      (* value of the NormalState property *)
  inputNode : option NodeId;        (* value of the InputNode property *)
  signalled : list ConditionEvent   (* conditions signalled so far, oldest first *)
}.

Definition set_proto (c : Class) (a : Alarm) : Alarm :=
  mkAlarm c (typeDefinition a) (activeState a) (normalState a) (inputNode a) (signalled a).
Definition set_typeDefinition (t : string) (a : Alarm) : Alarm :=
  mkAlarm (proto a) t (activeState a) (normalState a) (inputNode a) (signalled a).
Definition set_activeState (b : bool) (a : Alarm) : Alarm :=
  mkAlarm (proto a) (typeDefinition a) b (normalState a) (inputNode a) (signalled a).
Definition set_normalState (n : option NodeId) (a : Alarm) : Alarm :=
  mkAlarm (proto a) (typeDefinition a) (activeState a) n (inputNode a) (signalled a).
Definition set_inputNode (n : option NodeId) (a : Alarm) : Alarm :=
  mkAlarm (proto a) (typeDefinition a) (activeState a) (normalState a) n (signalled a).
Definition emit (e : ConditionEvent) (a : Alarm) : Alarm :=
  mkAlarm (proto a) (typeDefinition a) (activeState a) (normalState a) (inputNode a)
          (signalled a ++ [e]).

(** ** The address space *)

(** The function a "value_changed" listener closes over. *)
Inductive Listener :=
| CallOnInputDataValueChange (alarmNode : NodeId)
| CallOnNormalStateDataValueChange (alarmNode : NodeId)
| NormalStateReplaced (alarmNode : NodeId).   (* the empty "to do" listener *)

(** Where a listener is attached. *)
Inductive Emitter :=
| OnVariable (node : NodeId)
| OnNormalStateProperty (alarmNode : NodeId).

#[global] Instance Emitter_eq_dec : EqDecision Emitter.
Proof. solve_decision. Defined.

Record AddressSpace := mkAddressSpace {
  eventTypes : list string;               (* what findEventType can find *)
  variables : gmap NodeId DataValue.t;    (* value-bearing nodes and the value each holds *)
  alarms : gmap NodeId Alarm;             (* alarm objects *)
  listeners : list (Emitter * Listener)   (* in order of installation *)
}.

Definition set_variables (f : gmap NodeId DataValue.t -> gmap NodeId DataValue.t)
    (sp : AddressSpace) : AddressSpace :=
  mkAddressSpace (eventTypes sp) (f (variables sp)) (alarms sp) (listeners sp).
Definition set_alarms (f : gmap NodeId Alarm -> gmap NodeId Alarm)
    (sp : AddressSpace) : AddressSpace :=
  mkAddressSpace (eventTypes sp) (variables sp) (f (alarms sp)) (listeners sp).
Definition on (e : Emitter) (l : Listener) (sp : AddressSpace) : AddressSpace :=
  mkAddressSpace (eventTypes sp) (variables sp) (alarms sp) (listeners sp ++ [(e, l)]).

(** A resolved value-bearing node: its identifier and the value it holds. *)
Record UAVariable := mkVariable { nodeId : NodeId; dataValue : DataValue.t }.

Definition readValue (node : UAVariable) : DataValue.t := dataValue node.

(** Modelled from the spec: [addressSpace.findNode] is not part of the
    sources at hand.  Section 6: "findNode(id) -> Entity | null"; section 2:
    the resolver "resolves a configured identifier to a concrete
    value-bearing entity in the address space".  A null NodeId resolves to
    nothing. *)
Definition findNode (sp : AddressSpace) (id : option NodeId) : option UAVariable :=
  i ← id; dv ← variables sp !! i; Some (mkVariable i dv).

(** Modelled from the spec: [addressSpace.findEventType] is not part of the
    sources at hand; it looks an event type up by name. *)
Definition findEventType (sp : AddressSpace) (name : string) : option string :=
  if bool_decide (name ∈ eventTypes sp) then Some name else None.

(** Modelled from the spec: [isNullOrUndefined] of node-opcua-utils is not
    part of the sources at hand.  Section 4.3: a value is "unknown" when it
    is null or undefined. *)
Definition isNullOrUndefined (v : Js.Value) : bool :=
  match v with
  | Js.undefined | Js.null => true
  | _ => false
  end.

(** ** What the off-normal alarm inherits from the base alarm classes *)

Module UAAlarmConditionBase.

(** Modelled from the spec: the two-state variable behind [activeState] is
    not part of the sources at hand.  Section 3: "activeState: boolean";
    [activeState.getValue()] reads it and [activeState.setValue(b)] writes
    it. *)
Definition activeState_getValue : Method Alarm bool := gets activeState.
Definition activeState_setValue (b : bool) : Method Alarm unit :=
  modify (set_activeState b).

(** Modelled from the spec: [_signalNewCondition] is defined in a base
    class that is not part of the sources at hand.  Section 4.3, step 4:
    "transition to newActive; emit a Condition Event with transitionName,
    isActive, message"; section 6: "signalNewCondition(transitionName,
    isActive, message)". *)
Definition _signalNewCondition (stateName : string) (isActive : bool)
    (message : string) : Method Alarm unit :=
  modify (fun this => emit (mkEvent stateName isActive message)
                           (set_activeState isActive this)).

(** Modelled from the spec: [getInputNodeValue] is defined in a base class
    that is not part of the sources at hand.  Section 4.4: the normal-state
    path "reuses lastInputValue"; section 3: the last observed value "may
    be unknown before first delivery".  The last value of the input entity
    is the one the address space holds for it. *)
Definition getInputNodeValue (sp : AddressSpace) : Method Alarm Js.Value :=
  fun this =>
    match findNode sp (inputNode this) with
    | Some node => (Normal (Variant.value (DataValue.value (readValue node))), this)
    | None => (Normal Js.null, this)
    end.

End UAAlarmConditionBase.

(** ** UAOffNormalAlarm.prototype *)

Module UAOffNormalAlarm_prototype.
Import UAAlarmConditionBase.

Definition getNormalStateNode (sp : AddressSpace) : Method Alarm UAVariable :=
  let* nodeId := gets normalState in
  match findNode sp nodeId with
  | Some node => ret node
  | None => throw (AssertionError "getNormalStateNode ")
  end.

Definition getNormalStateValue (sp : AddressSpace) : Method Alarm Js.Value :=
  let* normalStateNode := getNormalStateNode sp in
  ret (Variant.value (DataValue.value (readValue normalStateNode))).

Definition setNormalStateValue (sp : AddressSpace) (value : Js.Value)
    : Method Alarm unit :=
  let* normalStateNode := getNormalStateNode sp in
  throw (Error "Not Implemented yet").

Definition isEqual (value1 value2 : Js.Value) : bool :=
  Js.strictEquals value1 value2.

Definition _updateAlarmState (normalStateValue inputValue : Js.Value)
    : Method Alarm unit :=
  if isNullOrUndefined normalStateValue || isNullOrUndefined inputValue then
    activeState_setValue false
  else
    let isActive := negb (isEqual normalStateValue inputValue) in
    let* current := activeState_getValue in
    if Bool.eqb isActive current then
      (* no change => ignore ! *)
      ret tt
    else
      let stateName := if isActive then "Active" else "Inactive" in
      (* also raise the event *)
      _signalNewCondition stateName isActive "".

Definition _onInputDataValueChange (sp : AddressSpace) (dataValue : DataValue.t)
    : Method Alarm unit :=
  if negb (bool_decide (DataValue.statusCode dataValue = StatusCodes.Good)) then
    ret tt
  else if bool_decide (Variant.dataType (DataValue.value dataValue) = DataType.Null) then
    ret tt
  else
    let inputValue := Variant.value (DataValue.value dataValue) in
    let* normalStateValue := getNormalStateValue sp in
    _updateAlarmState normalStateValue inputValue.

Definition _onNormalStateDataValueChange (sp : AddressSpace) (dataValue : DataValue.t)
    : Method Alarm unit :=
  if negb (bool_decide (DataValue.statusCode dataValue = StatusCodes.Good)) then
    ret tt
  else if bool_decide (Variant.dataType (DataValue.value dataValue) = DataType.Null) then
    ret tt
  else
    let normalStateValue := Variant.value (DataValue.value dataValue) in
    let* inputValue := getInputNodeValue sp in
    _updateAlarmState normalStateValue inputValue.

End UAOffNormalAlarm_prototype.

(** ** Prototype chain and method lookup *)

Inductive MethodName :=
| m_getNormalStateNode
| m_getNormalStateValue
| m_setNormalStateValue
| m_updateAlarmState
| m_onInputDataValueChange
| m_onNormalStateDataValueChange.

(** The methods each constructor assigns to its own prototype in this
    module.  [UASystemOffNormalAlarm] assigns none. *)
Definition hasOwnMethod (c : Class) (m : MethodName) : bool :=
  match c with
  | UAOffNormalAlarm => true
  | UASystemOffNormalAlarm => false
  | UADiscreteAlarm => false
  end.

(** [util.inherits(UAOffNormalAlarm, UADiscreteAlarm)] and
    [util.inherits(UASystemOffNormalAlarm, UAOffNormalAlarm)]. *)
Definition super_ (c : Class) : option Class :=
  match c with
  | UASystemOffNormalAlarm => Some UAOffNormalAlarm
  | UAOffNormalAlarm => Some UADiscreteAlarm
  | UADiscreteAlarm => None
  end.

(** The prototypes an object of class [c] looks a name up in, nearest
    first. *)
Definition prototypeChain (c : Class) : list Class :=
  match c with
  | UASystemOffNormalAlarm => [UASystemOffNormalAlarm; UAOffNormalAlarm; UADiscreteAlarm]
  | UAOffNormalAlarm => [UAOffNormalAlarm; UADiscreteAlarm]
  | UADiscreteAlarm => [UADiscreteAlarm]
  end.

(** The prototype that supplies method [m] to an object whose prototype
    is that of [c]. *)
Definition resolve (c : Class) (m : MethodName) : option Class :=
  find (fun k => hasOwnMethod k m) (prototypeChain c).

(** The body of the constructor function [UASystemOffNormalAlarm]: empty. *)
Definition UASystemOffNormalAlarm_constructor : Method Alarm unit := ret tt.

(** A method call on an alarm object, with its arguments. *)
Inductive Call :=
| getNormalStateNode_
| getNormalStateValue_
| setNormalStateValue_ (value : Js.Value)
| _updateAlarmState_ (normalStateValue inputValue : Js.Value)
| _onInputDataValueChange_ (dataValue : DataValue.t)
| _onNormalStateDataValueChange_ (dataValue : DataValue.t).

Definition methodOf (c : Call) : MethodName :=
  match c with
  | getNormalStateNode_ => m_getNormalStateNode
  | getNormalStateValue_ => m_getNormalStateValue
  | setNormalStateValue_ _ => m_setNormalStateValue
  | _updateAlarmState_ _ _ => m_updateAlarmState
  | _onInputDataValueChange_ _ => m_onInputDataValueChange
  | _onNormalStateDataValueChange_ _ => m_onNormalStateDataValueChange
  end.

Inductive Returned :=
| RUndefined
| RValue (v : Js.Value)
| RNode (node : UAVariable).

Definition returning {S A} (f : A -> Returned) (m : Method S A) : Method S Returned :=
  let* a := m in ret (f a).

(** The function found under each name on [UAOffNormalAlarm.prototype]. *)
Definition UAOffNormalAlarm_method (sp : AddressSpace) (c : Call)
    : Method Alarm Returned :=
  match c with
  | getNormalStateNode_ =>
      returning RNode (UAOffNormalAlarm_prototype.getNormalStateNode sp)
  | getNormalStateValue_ =>
      returning RValue (UAOffNormalAlarm_prototype.getNormalStateValue sp)
  | setNormalStateValue_ value =>
      returning (fun _ => RUndefined)
        (UAOffNormalAlarm_prototype.setNormalStateValue sp value)
  | _updateAlarmState_ n i =>
      returning (fun _ => RUndefined)
        (UAOffNormalAlarm_prototype._updateAlarmState n i)
  | _onInputDataValueChange_ dv =>
      returning (fun _ => RUndefined)
        (UAOffNormalAlarm_prototype._onInputDataValueChange sp dv)
  | _onNormalStateDataValueChange_ dv =>
      returning (fun _ => RUndefined)
        (UAOffNormalAlarm_prototype._onNormalStateDataValueChange sp dv)
  end.

(** [this.m(args)]: the method is looked up along the prototype chain of
    [this]. *)
Definition invoke (sp : AddressSpace) (c : Call) : Method Alarm Returned :=
  fun this =>
    match resolve (proto this) (methodOf c) with
    | Some UAOffNormalAlarm => UAOffNormalAlarm_method sp c this
    | _ => (Throw (TypeError "is not a function"), this)
    end.

(** A run of calls on one alarm object, each against the address space as it
    is at the time of the call; the run collects the completions. *)
Fixpoint invokeAll (calls : list (AddressSpace * Call)) (this : Alarm)
    : list (Completion Returned) * Alarm :=
  match calls with
  | [] => ([], this)
  | (sp, c) :: rest =>
      let '(r, this') := invoke sp c this in
      let '(rs, this'') := invokeAll rest this' in
      (r :: rs, this'')
  end.

(** ** Value-change notification *)

(** Runs a method of the alarm object [alarmNode] that lives in the address
    space.  A listener always closes over an existing object; the lookup
    failure only arises for an address space in which a listener names an
    alarm that is not there. *)
Definition withAlarm {R} (alarmNode : NodeId) (m : AddressSpace -> Method Alarm R)
    : Method AddressSpace R :=
  fun sp =>
    match alarms sp !! alarmNode with
    | Some this =>
        let '(r, this') := m sp this in
        (r, set_alarms (insert alarmNode this') sp)
    | None => (Throw (TypeError "alarmNode is undefined"), sp)
    end.

Definition runListener (l : Listener) (newDataValue : DataValue.t)
    : Method AddressSpace unit :=
  match l with
  | CallOnInputDataValueChange alarmNode =>
      withAlarm alarmNode (fun sp => invoke sp (_onInputDataValueChange_ newDataValue));;
      ret tt
  | CallOnNormalStateDataValueChange alarmNode =>
      withAlarm alarmNode (fun sp => invoke sp (_onNormalStateDataValueChange_ newDataValue));;
      ret tt
  | NormalStateReplaced _ => ret tt
  end.

(** [emitter.emit("value_changed", newDataValue)]: the listeners attached to
    the emitter run in order of installation; an exception ends the run. *)
Fixpoint emitValueChanged (ls : list (Emitter * Listener)) (e : Emitter)
    (newDataValue : DataValue.t) : Method AddressSpace unit :=
  match ls with
  | [] => ret tt
  | (e', l) :: rest =>
      (if bool_decide (e' = e) then runListener l newDataValue else ret tt);;
      emitValueChanged rest e newDataValue
  end.

(** Modelled from the spec: the Value Change Monitor is not part of the
    sources at hand.  Section 4.2: "subscribe(entity, handler) registers
    handler(valueUpdate) to be invoked whenever the entity's value changes".
    The entity [node] takes the value [newDataValue], then its handlers run
    with it. *)
Definition valueChanged (node : NodeId) (newDataValue : DataValue.t)
    : Method AddressSpace unit :=
  fun sp =>
    emitValueChanged (listeners sp) (OnVariable node) newDataValue
      (set_variables (insert node newDataValue) sp).

(** The active flag and the signalled conditions of an alarm of the address
    space. *)
Definition activeStateOf (sp : AddressSpace) (alarmNode : NodeId) : option bool :=
  activeState <$> alarms sp !! alarmNode.
Definition signalledOf (sp : AddressSpace) (alarmNode : NodeId)
    : option (list ConditionEvent) :=
  signalled <$> alarms sp !! alarmNode.

(** ** UAOffNormalAlarm.instantiate *)

(** The value of a key of the [options] object. *)
Inductive OptionValue :=
| OptNode (id : NodeId)           (* a NodeId, or the node object that has it *)
| OptList (names : list string)   (* an array *)
| OptValue (v : Js.Value).        (* anything else *)

Abbreviation Options := (gmap string OptionValue).

Definition hasOwnProperty (o : Options) (key : string) : bool :=
  bool_decide (is_Some (o !! key)).

Definition optionTruthy (v : option OptionValue) : bool :=
  match v with
  | None => false
  | Some (OptNode _) | Some (OptList _) => true
  | Some (OptValue v) => Js.truthy v
  end.

(** What [instantiate] can change: the address space and the [options]
    object of its caller. *)
Record Heap := mkHeap { addressSpace : AddressSpace; options : Options }.

Definition inSpace {R} (m : Method AddressSpace R) : Method Heap R :=
  fun h =>
    let '(r, sp) := m (addressSpace h) in
    (r, mkHeap sp (options h)).

Definition set_options (f : Options -> Options) (h : Heap) : Heap :=
  mkHeap (addressSpace h) (f (options h)).

(** Modelled from the spec: [addressSpace._coerceNode] is not part of the
    sources at hand.  Section 6: "coerceNode(refOrEntity) -> Entity | null";
    section 4.1: the identifier must "map to a live entity". *)
Definition _coerceNode (sp : AddressSpace) (ref : option OptionValue)
    : option UAVariable :=
  match ref with
  | Some (OptNode id) => findNode sp (Some id)
  | _ => None
  end.

(** Modelled from the spec: [UADiscreteAlarm.instantiate] is not part of the
    sources at hand.  Section 4.5 (a): "delegate to the base discrete-alarm
    construction contract to obtain a partially-built alarm object (external
    collaborator responsibility)".  The base construction is a parameter: it
    throws, or yields the node id and the content of the new alarm object,
    which then is part of the address space. *)
Definition BaseInstantiate : Type :=
  AddressSpace -> string -> Options -> Js.Value -> Completion (NodeId * Alarm).

Definition UADiscreteAlarm_instantiate (base : BaseInstantiate)
    (limitAlarmTypeId : string) (data : Js.Value) : Method Heap NodeId :=
  fun h =>
    match base (addressSpace h) limitAlarmTypeId (options h) data with
    | Normal (alarmNode, this) =>
        (Normal alarmNode,
         mkHeap (set_alarms (insert alarmNode this) (addressSpace h)) (options h))
    | Throw e => (Throw e, h)
    end.

(** Modelled from the spec: [_installInputNodeMonitoring] is defined in a
    base class that is not part of the sources at hand.  Section 4.5 (d):
    "install Value Change Monitor subscriptions on both entities"; section 3:
    [inputRef] is the "identifier of the monitored entity".  The alarm keeps
    the identifier of the input entity and its input handler is subscribed
    to that entity. *)
Definition _installInputNodeMonitoring (alarmNode : NodeId) (inputNode : UAVariable)
    : Method AddressSpace unit :=
  withAlarm alarmNode (fun _ => modify (set_inputNode (Some (nodeId inputNode))));;
  modify (on (OnVariable (nodeId inputNode)) (CallOnInputDataValueChange alarmNode)).

(** [options.optionals = options.optionals || []]. *)
Definition withOptionals (o : Options) : Options :=
  <["optionals" := if optionTruthy (o !! "optionals")
                   then default (OptList []) (o !! "optionals")
                   else OptList []]> o.

Module UAOffNormalAlarm_static.

Definition instantiate (base : BaseInstantiate) (limitAlarmTypeId : string)
    (data : Js.Value) : Method Heap NodeId :=
  let* offNormalAlarmType :=
    gets (fun h => findEventType (addressSpace h) "OffNormalAlarmType") in
  match offNormalAlarmType with
  | None => throw (Error "cannot find offNormalAlarmType")
  | Some _ =>
    let* o := gets options in
    assert (hasOwnProperty o "inputNode") "must provide inputNode";;
    assert (hasOwnProperty o "normalState") "must provide a normalState Node";;
    modify (set_options withOptionals);;
    let* o := gets options in
    assert (hasOwnProperty o "inputNode") "must provide inputNode";;
    let* alarmNode := UADiscreteAlarm_instantiate base limitAlarmTypeId data in
    (* Object.setPrototypeOf(alarmNode, UAOffNormalAlarm.prototype) *)
    inSpace (withAlarm alarmNode (fun _ => modify (set_proto UAOffNormalAlarm)));;
    let* inputNode := gets (fun h => _coerceNode (addressSpace h) (options h !! "inputNode")) in
    match inputNode with
    | None => throw (AssertionError "Expecting a valid input node")
    | Some inputNode =>
      let* normalState :=
        gets (fun h => _coerceNode (addressSpace h) (options h !! "normalState")) in
      match normalState with
      | None => throw (AssertionError "Expecting a valid normalState node")
      | Some normalState =>
        (* alarmNode.normalState.setValueFromSource({ NodeId, normalState.nodeId }) *)
        inSpace (withAlarm alarmNode
                   (fun _ => modify (set_normalState (Some (nodeId normalState)))));;
        (* install inputNode Node monitoring for change *)
        inSpace (_installInputNodeMonitoring alarmNode inputNode);;
        inSpace (modify (on (OnNormalStateProperty alarmNode)
                            (NormalStateReplaced alarmNode)));;
        (* install normalState monitoring for change *)
        inSpace (modify (on (OnVariable (nodeId normalState))
                            (CallOnNormalStateDataValueChange alarmNode)));;
        (* alarmNode._updateAlarmState() *)
        inSpace (withAlarm alarmNode
                   (fun sp => invoke sp (_updateAlarmState_ Js.undefined Js.undefined)));;
        ret alarmNode
      end
    end
  end.

End UAOffNormalAlarm_static.

(** ** Reachable address spaces *)

(** An address space in which the alarm [alarmNode] has been instantiated,
    followed by any number of value changes. *)
Inductive reachable (alarmNode : NodeId) : AddressSpace -> Prop :=
| reachable_instantiate base limitAlarmTypeId data h h' :
    alarms (addressSpace h) = ∅ ->
    listeners (addressSpace h) = [] ->
    UAOffNormalAlarm_static.instantiate base limitAlarmTypeId data h
      = (Normal alarmNode, h') ->
    reachable alarmNode (addressSpace h')
| reachable_valueChanged sp node newDataValue sp' :
    reachable alarmNode sp ->
    valueChanged node newDataValue sp = (Normal tt, sp') ->
    reachable alarmNode sp'.

(** ** A small plant for the examples *)

Module Plant.

Definition inputId : NodeId := 1%N.
Definition normalId : NodeId := 2%N.
Definition alarmId : NodeId := 100%N.

Definition int32 (z : Z) : DataValue.t := DataValue.good DataType.Int32 (Js.ofZ z).

(** An input at 7 and a normal state at 42. *)
Definition space0 : AddressSpace :=
  mkAddressSpace ["OffNormalAlarmType"]
    (<[inputId := int32 7]> (<[normalId := int32 42]> ∅)) ∅ [].

Definition options0 : Options :=
  <["inputNode" := OptNode inputId]> (<["normalState" := OptNode normalId]> ∅).

(** A base construction that yields an alarm object that is active. *)
Definition base0 : BaseInstantiate :=
  fun _ limitAlarmTypeId _ _ =>
    Normal (alarmId, mkAlarm UADiscreteAlarm limitAlarmTypeId true None None []).

Definition heap0 : Heap := mkHeap space0 options0.

Definition alarm0 : Alarm :=
  mkAlarm UAOffNormalAlarm "OffNormalAlarmType" false (Some normalId) (Some inputId) [].

(** What is seen of the alarm of the plant. *)
Definition observe (sp : AddressSpace) : option bool * option (list ConditionEvent) :=
  (activeStateOf sp alarmId, signalledOf sp alarmId).

End Plant.

(** ** What the comparator computes *)

(** The flag a run of [_updateAlarmState] decides on: the literal [false]
    of the unknown-value branch, or [!isEqual(...)]. *)
Definition computedActive (normalStateValue inputValue : Js.Value) : bool :=
  if isNullOrUndefined normalStateValue || isNullOrUndefined inputValue then false
  else negb (UAOffNormalAlarm_prototype.isEqual normalStateValue inputValue).

Definition stateNameOf (isActive : bool) : string :=
  if isActive then "Active" else "Inactive".

(** "Every change of [activeState] made by a comparator run comes with
    exactly one condition event that describes it." *)
Definition transitionSignalled (n i : Js.Value) (this : Alarm) : Prop :=
  let this' := snd (UAOffNormalAlarm_prototype._updateAlarmState n i this) in
  activeState this' <> activeState this ->
  signalled this' =
    (signalled this ++ [mkEvent (stateNameOf (activeState this')) (activeState this') ""])%list.

(** The value the address space holds for the input entity of an alarm. *)
Definition storedInputValue (sp : AddressSpace) (this : Alarm) : Js.Value :=
  match inputNode this ≫= (fun i => variables sp !! i) with
  | Some dv => Variant.value (DataValue.value dv)
  | None => Js.null
  end.

(** An alarm object seen with another type identity. *)
Definition retag (c : Class) (t : string) (this : Alarm) : Alarm :=
  set_proto c (set_typeDefinition t this).

(** A delivery the handlers ignore: its status is not [Good] or its
    variant has the data type [Null]. *)
Definition ignored (dataValue : DataValue.t) : Prop :=
  DataValue.statusCode dataValue <> StatusCodes.Good \/
  Variant.dataType (DataValue.value dataValue) = DataType.Null.

(** The listeners [instantiate] installs for an alarm. *)
Definition installed (alarmNode inputNode normalState : NodeId)
    : list (Emitter * Listener) :=
  [(OnVariable inputNode, CallOnInputDataValueChange alarmNode);
   (OnNormalStateProperty alarmNode, NormalStateReplaced alarmNode);
   (OnVariable normalState, CallOnNormalStateDataValueChange alarmNode)].

(** The address space holds the alarm object [this] under [alarmNode],
    wired to the two distinct entities [input] and [normal], and no other
    listener. *)
Definition wiredTo (alarmNode input normal : NodeId) (this : Alarm)
    (sp : AddressSpace) : Prop :=
  listeners sp = installed alarmNode input normal /\
  input <> normal /\
  alarms sp !! alarmNode = Some this /\
  proto this = UAOffNormalAlarm /\
  inputNode this = Some input /\
  normalState this = Some normal.

(** The address space in which the alarm [alarmNode] is seen as a system
    off-normal alarm. *)
Definition asSystem (alarmNode : NodeId) (t : string) (sp : AddressSpace)
    : AddressSpace :=
  set_alarms (alter (retag UASystemOffNormalAlarm t) alarmNode) sp.

(** A run of value changes, one after the other; the run collects the
    completions. *)
Fixpoint notifyAll (changes : list (NodeId * DataValue.t)) (sp : AddressSpace)
    : list (Completion unit) * AddressSpace :=
  match changes with
  | [] => ([], sp)
  | (node, newDataValue) :: rest =>
      let '(r, sp') := valueChanged node newDataValue sp in
      let '(rs, sp'') := notifyAll rest sp' in
      (r :: rs, sp'')
  end.

(** Two states of an alarm object that agree on everything but the active
    state and the signalled conditions. *)
Definition sameWiring (a b : Alarm) : Prop :=
  proto a = proto b /\ typeDefinition a = typeDefinition b /\
  normalState a = normalState b /\ inputNode a = inputNode b.

Definition keepsWiring {R} (m : Method Alarm R) : Prop :=
  forall this, sameWiring this (snd (m this)).

(** A method that neither reads nor writes the type identity of [this]. *)
Definition identityBlind {R} (m : Method Alarm R) : Prop :=
  forall c t this, m (retag c t this) = (fst (m this), retag c t (snd (m this))).

(** The alarm object at the end of a successful [instantiate], from the
    object [this0] the base construction built. *)
Definition wiredAlarm (this0 : Alarm) (normalState inputNode : NodeId) : Alarm :=
  set_activeState false
    (set_inputNode (Some inputNode)
      (set_normalState (Some normalState) (set_proto UAOffNormalAlarm this0))).

(** The alarm is an off-normal alarm object of the address space and its
    normal-state reference resolves. *)
Definition wired (alarmNode : NodeId) (sp : AddressSpace) : Prop :=
  exists this,
    alarms sp !! alarmNode = Some this /\
    proto this = UAOffNormalAlarm /\
    is_Some (findNode sp (normalState this)).

(** The exceptions of the guards at the head of [instantiate], which run
    before anything is built or installed. *)
Definition preconditionViolation (e : Exception) : Prop :=
  e = Error "cannot find offNormalAlarmType" \/
  e = AssertionError "must provide inputNode" \/
  e = AssertionError "must provide a normalState Node".

(** ** What the further properties speak of *)

(** The two kinds of number on which [===] departs from identity: NaN,
    which equals nothing, and the two zeros, which equal each other. *)
Definition isNaN (v : Js.Value) : bool :=
  match v with Js.number S754_nan => true | _ => false end.

Definition isZero (v : Js.Value) : bool :=
  match v with Js.number (S754_zero _) => true | _ => false end.

(** A run of calls of [_updateAlarmState] on one alarm object, each with
    its pair (normalStateValue, inputValue). *)
Fixpoint updateAll (pairs : list (Js.Value * Js.Value)) (this : Alarm) : Alarm :=
  match pairs with
  | [] => this
  | (normalStateValue, inputValue) :: rest =>
      updateAll rest
        (snd (UAOffNormalAlarm_prototype._updateAlarmState normalStateValue inputValue this))
  end.

Definition bothKnown (p : Js.Value * Js.Value) : Prop :=
  isNullOrUndefined (fst p) = false /\ isNullOrUndefined (snd p) = false.

(** The shape of the conditions [_updateAlarmState] signals: the name is
    the one of the flag and the message is empty. *)
Definition wellFormedEvent (e : ConditionEvent) : Prop :=
  transitionName e = stateNameOf (isActive e) /\ message e = "".

(** The flags of the conditions are [next], then its negation, and so on. *)
Fixpoint alternating (next : bool) (evs : list ConditionEvent) : Prop :=
  match evs with
  | [] => True
  | e :: rest => isActive e = next /\ alternating (negb next) rest
  end.

(** Two address spaces with the same event types, the same listeners and,
    under every node id, alarm objects that agree on everything but the
    active state and the signalled conditions. *)
Definition sameShape (sp sp' : AddressSpace) : Prop :=
  eventTypes sp' = eventTypes sp /\
  listeners sp' = listeners sp /\
  forall alarmNode,
    option_Forall2 sameWiring (alarms sp !! alarmNode) (alarms sp' !! alarmNode).

(** The node values after a run of value changes. *)
Definition writes (changes : list (NodeId * DataValue.t))
    (values : gmap NodeId DataValue.t) : gmap NodeId DataValue.t :=
  foldl (fun m c => <[fst c := snd c]> m) values changes.


(** The alarm a listener calls. *)
Definition listenerAlarm (l : Listener) : NodeId :=
  match l with
  | CallOnInputDataValueChange a | CallOnNormalStateDataValueChange a
  | NormalStateReplaced a => a
  end.



(** * Properties *)

Section Comparator.
Import UAAlarmConditionBase UAOffNormalAlarm_prototype.

Lemma set_activeState_same this :
  set_activeState (activeState this) this = this.
Proof. by destruct this. Qed.

Lemma strictEquals_typeOf v1 v2 :
  Js.strictEquals v1 v2 = true -> Js.typeOf v1 = Js.typeOf v2.
Proof. by destruct v1, v2. Qed.

(** Outside numbers, [===] holds exactly of identical values. *)
Lemma strictEquals_exact v1 v2 :
  Js.typeOf v1 <> Js.TNumber ->
  Js.strictEquals v1 v2 = true <-> v1 = v2.
Proof.
  intros Hn. destruct v1, v2; simpl in *; try done; split; intros H;
    try discriminate; try congruence.
  - apply Bool.eqb_prop in H. by subst.
  - injection H as ->. by destruct b0.
  - apply String.eqb_eq in H. by subst.
  - injection H as ->. apply String.eqb_refl.
  - apply N.eqb_eq in H. by subst.
  - injection H as ->. apply N.eqb_refl.
Qed.

(** The known-value branch, as one equation. *)
Lemma _updateAlarmState_known n i this :
  isNullOrUndefined n = false -> isNullOrUndefined i = false ->
  _updateAlarmState n i this =
    if Bool.eqb (negb (isEqual n i)) (activeState this)
    then (Normal tt, this)
    else (Normal tt, emit (mkEvent (stateNameOf (negb (isEqual n i)))
                                   (negb (isEqual n i)) "")
                          (set_activeState (negb (isEqual n i)) this)).
Proof.
  intros Hn Hi. unfold _updateAlarmState. rewrite Hn, Hi. simpl.
  unfold bind, activeState_getValue, gets. simpl.
  by destruct (Bool.eqb (negb (isEqual n i)) (activeState this)).
Qed.

(** The unknown-value branch, as one equation. *)
Lemma _updateAlarmState_unknown n i this :
  isNullOrUndefined n || isNullOrUndefined i = true ->
  _updateAlarmState n i this = (Normal tt, set_activeState false this).
Proof. intros H. unfold _updateAlarmState. by rewrite H. Qed.

Lemma _updateAlarmState_activeState n i this :
  activeState (snd (_updateAlarmState n i this)) = computedActive n i.
Proof.
  unfold computedActive.
  destruct (isNullOrUndefined n || isNullOrUndefined i) eqn:H.
  - by rewrite _updateAlarmState_unknown.
  - apply orb_false_elim in H as [Hn Hi].
    rewrite _updateAlarmState_known by done.
    destruct (Bool.eqb _ _) eqn:E; simpl; [|done].
    apply Bool.eqb_prop in E. by rewrite E.
Qed.

Lemma _updateAlarmState_completes n i this :
  fst (_updateAlarmState n i this) = Normal tt.
Proof.
  destruct (isNullOrUndefined n || isNullOrUndefined i) eqn:H.
  - by rewrite _updateAlarmState_unknown.
  - apply orb_false_elim in H as [Hn Hi].
    rewrite _updateAlarmState_known by done. by destruct (Bool.eqb _ _).
Qed.

(** A run whose computed flag is the current one leaves the object as it
    is. *)
Lemma _updateAlarmState_same n i this :
  computedActive n i = activeState this ->
  _updateAlarmState n i this = (Normal tt, this).
Proof.
  unfold computedActive. intros Hc.
  destruct (isNullOrUndefined n || isNullOrUndefined i) eqn:H.
  - rewrite _updateAlarmState_unknown by done.
    by rewrite Hc, set_activeState_same.
  - apply orb_false_elim in H as [Hn Hi].
    rewrite _updateAlarmState_known by done.
    by rewrite Hc, Bool.eqb_reflx.
Qed.

End Comparator.

Section ComparatorRuns.
Import UAAlarmConditionBase UAOffNormalAlarm_prototype.

(** C1: when both values are known, the run completes and the active state
    afterwards is [normalValue !== inputValue]: [false] for strictly equal
    pairs and [true] for all others; values of different JavaScript types
    are never equal (no coercion), and outside numbers only identical
    values are equal (no tolerance). *)
Theorem C1_known_values_strict_inequality (n i : Js.Value) (this : Alarm)
    (Hn : isNullOrUndefined n = false) (Hi : isNullOrUndefined i = false) :
  let this' := snd (_updateAlarmState n i this) in
  fst (_updateAlarmState n i this) = Normal tt /\
  activeState this' = negb (Js.strictEquals n i) /\
  (Js.strictEquals n i = true -> activeState this' = false) /\
  (Js.strictEquals n i = false -> activeState this' = true) /\
  (Js.typeOf n <> Js.typeOf i -> activeState this' = true) /\
  (Js.typeOf n <> Js.TNumber -> (activeState this' = false <-> n = i)).
Proof.
  simpl.
  assert (Ha : activeState (snd (_updateAlarmState n i this))
               = negb (Js.strictEquals n i)).
  { rewrite _updateAlarmState_activeState. unfold computedActive.
    by rewrite Hn, Hi. }
  split; [apply _updateAlarmState_completes|].
  split; [done|]. rewrite Ha.
  split; [by intros ->|]. split; [by intros ->|]. split.
  - intros Ht. destruct (Js.strictEquals n i) eqn:E; [|done].
    by apply strictEquals_typeOf in E.
  - intros Ht. rewrite <- (strictEquals_exact n i Ht).
    by destruct (Js.strictEquals n i).
Qed.

Lemma C1_witness :
  activeState (snd (_updateAlarmState (Js.ofZ 42) (Js.ofZ 7) Plant.alarm0)) = true /\
  activeState (snd (_updateAlarmState (Js.str "on") (Js.str "on")
                      (set_activeState true Plant.alarm0))) = false.
Proof.
  split.
  - destruct (C1_known_values_strict_inequality (Js.ofZ 42) (Js.ofZ 7) Plant.alarm0
                eq_refl eq_refl) as (_ & _ & _ & Hne & _).
    apply Hne. reflexivity.
  - destruct (C1_known_values_strict_inequality (Js.str "on") (Js.str "on")
                (set_activeState true Plant.alarm0) eq_refl eq_refl)
      as (_ & _ & Heq & _).
    apply Heq. reflexivity.
Defined.

(** C2, as stated, fails: with the input value unknown an active alarm
    becomes inactive and no condition is signalled. *)
Lemma C2_silent_transition_counterexample :
  ~ transitionSignalled Js.undefined (Js.ofZ 5) (set_activeState true Plant.alarm0).
Proof. intros H. by specialize (H ltac:(done)). Qed.

(** C2 (amended): a run whose computed flag equals the current active state
    signals nothing and leaves the alarm unchanged; the same pair run twice
    in a row signals at most one condition in total, none in the second
    run; and with both values known every transition signals exactly one
    condition, named after the new flag, carrying it, with an empty
    message. *)
Theorem C2_emission_idempotent (n i : Js.Value) (this : Alarm) :
  let this1 := snd (_updateAlarmState n i this) in
  let this2 := snd (_updateAlarmState n i this1) in
  (computedActive n i = activeState this ->
     _updateAlarmState n i this = (Normal tt, this)) /\
  (this2 = this1 /\ length (signalled this2) <= length (signalled this) + 1) /\
  (isNullOrUndefined n = false -> isNullOrUndefined i = false ->
     activeState this1 = negb (isEqual n i) /\ transitionSignalled n i this).
Proof.
  simpl.
  assert (Hsecond : snd (_updateAlarmState n i (snd (_updateAlarmState n i this)))
                    = snd (_updateAlarmState n i this)).
  { rewrite (_updateAlarmState_same n i (snd (_updateAlarmState n i this))); [done|].
    by rewrite _updateAlarmState_activeState. }
  split; [apply _updateAlarmState_same|]. split.
  - split; [done|]. rewrite Hsecond.
    destruct (isNullOrUndefined n || isNullOrUndefined i) eqn:H.
    + rewrite _updateAlarmState_unknown by done. simpl. lia.
    + apply orb_false_elim in H as [Hn Hi].
      rewrite _updateAlarmState_known by done.
      destruct (Bool.eqb _ _); simpl; [lia|].
      rewrite length_app. simpl. lia.
  - intros Hn Hi. unfold transitionSignalled.
    rewrite _updateAlarmState_known by done.
    destruct (Bool.eqb _ _) eqn:E; simpl; [|done].
    apply Bool.eqb_prop in E. by rewrite E.
Qed.

Lemma C2_witness :
  _updateAlarmState (Js.ofZ 42) (Js.ofZ 42) Plant.alarm0 = (Normal tt, Plant.alarm0) /\
  signalled (snd (_updateAlarmState (Js.ofZ 42) (Js.ofZ 7) Plant.alarm0))
    = [mkEvent "Active" true ""].
Proof.
  split.
  - destruct (C2_emission_idempotent (Js.ofZ 42) (Js.ofZ 42) Plant.alarm0)
      as (Hsame & _).
    apply Hsame. reflexivity.
  - destruct (C2_emission_idempotent (Js.ofZ 42) (Js.ofZ 7) Plant.alarm0)
      as (_ & _ & Hstep).
    destruct (Hstep eq_refl eq_refl) as (_ & Hev).
    apply Hev. discriminate.
Defined.

(** C4: when the normal or the input value is null or undefined, the run
    sets the active state to [false] and returns: whatever the current
    active state was, the outcome is the same, and no condition is
    signalled. *)
Theorem C4_unknown_value_sets_inactive (n i : Js.Value) (this : Alarm)
    (H : isNullOrUndefined n = true \/ isNullOrUndefined i = true) :
  _updateAlarmState n i this = (Normal tt, set_activeState false this) /\
  activeState (snd (_updateAlarmState n i this)) = false /\
  signalled (snd (_updateAlarmState n i this)) = signalled this /\
  (forall current : bool,
     _updateAlarmState n i (set_activeState current this)
       = (Normal tt, set_activeState false this)).
Proof.
  assert (Hb : isNullOrUndefined n || isNullOrUndefined i = true).
  { destruct H as [-> | ->]; [done | apply orb_true_r]. }
  rewrite _updateAlarmState_unknown by done.
  repeat split; try done.
  intros current. by rewrite _updateAlarmState_unknown.
Qed.

Lemma C4_witness :
  _updateAlarmState Js.null (Js.ofZ 7) (set_activeState true Plant.alarm0)
    = (Normal tt, Plant.alarm0).
Proof.
  destruct (C4_unknown_value_sets_inactive Js.null (Js.ofZ 7)
              (set_activeState true Plant.alarm0) (or_introl eq_refl)) as (Heq & _).
  exact Heq.
Defined.

End ComparatorRuns.

Section Handlers.
Import UAAlarmConditionBase UAOffNormalAlarm_prototype.

Lemma getInputNodeValue_stored sp this :
  getInputNodeValue sp this = (Normal (storedInputValue sp this), this).
Proof.
  unfold getInputNodeValue, storedInputValue, findNode, readValue.
  destruct (inputNode this) as [i|]; simpl; [|done].
  by destruct (variables sp !! i).
Qed.

(** Re-inserting an alarm object that did not change leaves the address
    space as it is. *)
Lemma set_alarms_insert_same sp alarmNode this :
  alarms sp !! alarmNode = Some this ->
  set_alarms (insert alarmNode this) sp = sp.
Proof.
  intros H. destruct sp as [et vs als ls]. unfold set_alarms. simpl in *.
  by rewrite insert_id.
Qed.

Lemma withAlarm_variables {R} alarmNode (m : AddressSpace -> Method Alarm R) sp :
  variables (snd (withAlarm alarmNode m sp)) = variables sp.
Proof.
  unfold withAlarm. destruct (alarms sp !! alarmNode); [|done].
  by destruct (m sp a).
Qed.

Lemma withAlarm_listeners {R} alarmNode (m : AddressSpace -> Method Alarm R) sp :
  listeners (snd (withAlarm alarmNode m sp)) = listeners sp.
Proof.
  unfold withAlarm. destruct (alarms sp !! alarmNode); [|done].
  by destruct (m sp a).
Qed.

Lemma runListener_variables l dv sp :
  variables (snd (runListener l dv sp)) = variables sp.
Proof.
  destruct l; simpl; [| |done]; unfold bind;
    match goal with
    | |- context [withAlarm ?a ?m sp] =>
        pose proof (withAlarm_variables a m sp) as H;
        destruct (withAlarm a m sp) as [[r|e] sp']
    end; done.
Qed.

(** Listeners read the values of the address space and never write them. *)
Lemma emitValueChanged_variables ls e dv sp :
  variables (snd (emitValueChanged ls e dv sp)) = variables sp.
Proof.
  revert sp. induction ls as [|[e' l] ls IH]; intros sp; [done|].
  simpl. unfold bind at 1. destruct (bool_decide (e' = e)).
  - pose proof (runListener_variables l dv sp) as H.
    destruct (runListener l dv sp) as [[r|x] sp']; simpl in *; [|done].
    by rewrite IH.
  - simpl. apply IH.
Qed.

(** Once a change has been notified, the entity holds the delivered
    value, whatever its handlers did. *)
Lemma valueChanged_variables node dv sp :
  variables (snd (valueChanged node dv sp)) = <[node := dv]> (variables sp).
Proof. unfold valueChanged. by rewrite emitValueChanged_variables. Qed.

Lemma _onInputDataValueChange_ignored sp dv this :
  ignored dv -> _onInputDataValueChange sp dv this = ret tt this.
Proof.
  unfold _onInputDataValueChange. intros [H | H].
  - by rewrite bool_decide_eq_false_2.
  - rewrite (bool_decide_eq_true_2 _ H). by destruct (negb _).
Qed.

Lemma _onNormalStateDataValueChange_ignored sp dv this :
  ignored dv -> _onNormalStateDataValueChange sp dv this = ret tt this.
Proof.
  unfold _onNormalStateDataValueChange. intros [H | H].
  - by rewrite bool_decide_eq_false_2.
  - rewrite (bool_decide_eq_true_2 _ H). by destruct (negb _).
Qed.

Lemma _onNormalStateDataValueChange_completes sp dv this :
  fst (_onNormalStateDataValueChange sp dv this) = Normal tt.
Proof.
  unfold _onNormalStateDataValueChange.
  destruct (negb _); [done|]. destruct (bool_decide _); [done|].
  unfold bind. rewrite getInputNodeValue_stored. apply _updateAlarmState_completes.
Qed.

(** What the installed listeners do, in terms of the handlers. *)
Lemma runListener_input alarmNode dv sp this :
  alarms sp !! alarmNode = Some this -> proto this = UAOffNormalAlarm ->
  runListener (CallOnInputDataValueChange alarmNode) dv sp
    = (fst (_onInputDataValueChange sp dv this),
       set_alarms (insert alarmNode (snd (_onInputDataValueChange sp dv this))) sp).
Proof.
  intros Ha Hp. unfold runListener, bind, withAlarm, invoke. rewrite Ha, Hp. simpl.
  unfold returning, bind.
  by destruct (_onInputDataValueChange sp dv this) as [[[]|e] this'].
Qed.

Lemma runListener_normalState alarmNode dv sp this :
  alarms sp !! alarmNode = Some this -> proto this = UAOffNormalAlarm ->
  runListener (CallOnNormalStateDataValueChange alarmNode) dv sp
    = (Normal tt,
       set_alarms (insert alarmNode (snd (_onNormalStateDataValueChange sp dv this))) sp).
Proof.
  intros Ha Hp. unfold runListener, bind, withAlarm, invoke. rewrite Ha, Hp. simpl.
  unfold returning, bind.
  pose proof (_onNormalStateDataValueChange_completes sp dv this) as Hc.
  by destruct (_onNormalStateDataValueChange sp dv this) as [[[]|e] this'].
Qed.



(** An ignored delivery changes no alarm object, whatever the listeners. *)
Lemma invoke_ignored sp c dv this :
  ignored dv ->
  c = _onInputDataValueChange_ dv \/ c = _onNormalStateDataValueChange_ dv ->
  snd (invoke sp c this) = this.
Proof.
  intros Hi Hc. unfold invoke. destruct (resolve _ _) as [[]|]; try done.
  destruct Hc as [-> | ->]; simpl; unfold returning, bind.
  - by rewrite _onInputDataValueChange_ignored.
  - by rewrite _onNormalStateDataValueChange_ignored.
Qed.

Lemma withAlarm_ignored alarmNode c dv sp :
  ignored dv ->
  c = _onInputDataValueChange_ dv \/ c = _onNormalStateDataValueChange_ dv ->
  snd (withAlarm alarmNode (fun sp => invoke sp c) sp) = sp.
Proof.
  intros Hi Hc. unfold withAlarm.
  destruct (alarms sp !! alarmNode) as [this|] eqn:Ha; [|done].
  pose proof (invoke_ignored sp c dv this Hi Hc) as Hs.
  destruct (invoke sp c this) as [r this']. simpl in *. subst this'.
  by apply set_alarms_insert_same.
Qed.

Lemma runListener_ignored l dv sp :
  ignored dv -> snd (runListener l dv sp) = sp.
Proof.
  intros Hi. destruct l; simpl; [| |done]; unfold bind;
    match goal with
    | |- context [withAlarm ?a (fun sp => invoke sp ?c) sp] =>
        pose proof (withAlarm_ignored a c dv sp Hi) as Hs;
        destruct (withAlarm a (fun sp => invoke sp c) sp) as [[r|e] sp'];
        simpl in *; rewrite Hs; auto
    end.
Qed.





(** The plant after its instantiation is wired. *)
Lemma plant_wiredTo :
  wiredTo Plant.alarmId Plant.inputId Plant.normalId Plant.alarm0
    (addressSpace
       (snd (UAOffNormalAlarm_static.instantiate Plant.base0 "OffNormalAlarmType"
               Js.undefined Plant.heap0))).
Proof. repeat split; by vm_compute. Qed.


End Handlers.

(** ** Inversion of successful runs *)

Section MonadInversion.

Lemma bind_inv {S A B} (m : Method S A) (k : A -> Method S B) s b s2 :
  bind m k s = (Normal b, s2) ->
  exists a s1, m s = (Normal a, s1) /\ k a s1 = (Normal b, s2).
Proof. unfold bind. destruct (m s) as [[a|e] s1]; [eauto|intros [=]]. Qed.

Lemma gets_inv {S R} (f : S -> R) s a s1 :
  gets f s = (Normal a, s1) -> a = f s /\ s1 = s.
Proof. by intros [= <- <-]. Qed.

Lemma modify_inv {S} (f : S -> S) s a s1 :
  modify f s = (Normal a, s1) -> s1 = f s.
Proof. by intros [= <-]. Qed.

Lemma assert_inv {S} c msg (s : S) a s1 :
  assert c msg s = (Normal a, s1) -> c = true /\ s1 = s.
Proof. destruct c; [by intros [= <-]|intros [=]]. Qed.

Lemma ret_inv {S R} (r : R) (s : S) a s1 :
  ret r s = (Normal a, s1) -> a = r /\ s1 = s.
Proof. by intros [= <- <-]. Qed.

Lemma inSpace_inv {R} (m : Method AddressSpace R) h a h1 :
  inSpace m h = (Normal a, h1) ->
  exists sp1, m (addressSpace h) = (Normal a, sp1) /\ h1 = mkHeap sp1 (options h).
Proof.
  unfold inSpace. destruct (m (addressSpace h)) as [r sp1].
  intros [= <- <-]. eauto.
Qed.

Lemma withAlarm_found {R} alarmNode (m : AddressSpace -> Method Alarm R) sp this :
  alarms sp !! alarmNode = Some this ->
  withAlarm alarmNode m sp
    = (fst (m sp this), set_alarms (insert alarmNode (snd (m sp this))) sp).
Proof. intros H. unfold withAlarm. rewrite H. by destruct (m sp this). Qed.

Lemma pair_fst_snd {A B} (p : A * B) (a : A) : fst p = a -> p = (a, snd p).
Proof. destruct p. simpl. by intros ->. Qed.

End MonadInversion.

Ltac monadInv H :=
  lazymatch type of H with
  | bind _ _ _ = (Normal _, _) =>
      let H1 := fresh "Hstep" in
      apply bind_inv in H as (? & ? & H1 & H); monadInv H1; monadInv H
  | gets _ _ = (Normal _, _) => apply gets_inv in H as [-> ->]
  | modify _ _ = (Normal _, _) => apply modify_inv in H as ->
  | assert _ _ _ = (Normal _, _) => apply assert_inv in H as [H ->]
  | ret _ _ = (Normal _, _) => apply ret_inv in H as [-> ->]
  | throw _ _ = (Normal _, _) => discriminate H
  | inSpace _ _ = (Normal _, _) => apply inSpace_inv in H as (? & H & ->)
  | match ?x with _ => _ end _ = (Normal _, _) =>
      let E := fresh "E" in destruct x eqn:E; monadInv H
  | _ => idtac
  end.

(** ** What the methods leave alone *)

Section Wiring.
Import UAAlarmConditionBase UAOffNormalAlarm_prototype.

Lemma sameWiring_trans a b c : sameWiring a b -> sameWiring b c -> sameWiring a c.
Proof. unfold sameWiring. intuition congruence. Qed.

Lemma keepsWiring_ret {R} (r : R) : keepsWiring (ret r).
Proof. by intros this. Qed.

Lemma keepsWiring_throw {R} e : keepsWiring (@throw Alarm R e).
Proof. by intros this. Qed.

Lemma keepsWiring_gets {R} (f : Alarm -> R) : keepsWiring (gets f).
Proof. by intros this. Qed.

Lemma keepsWiring_bind {A B} (m : Method Alarm A) (k : A -> Method Alarm B) :
  keepsWiring m -> (forall a, keepsWiring (k a)) -> keepsWiring (bind m k).
Proof.
  intros Hm Hk this. unfold bind. specialize (Hm this).
  destruct (m this) as [[a|e] this']; simpl in *; [|done].
  eapply sameWiring_trans; [done|apply Hk].
Qed.

Lemma keepsWiring_setValue b : keepsWiring (activeState_setValue b).
Proof. by intros this. Qed.

Lemma keepsWiring_signal s b m : keepsWiring (_signalNewCondition s b m).
Proof. by intros this. Qed.

Lemma keepsWiring_getInputNodeValue sp : keepsWiring (getInputNodeValue sp).
Proof. intros this. unfold getInputNodeValue. by destruct (findNode _ _). Qed.

End Wiring.

Create HintDb wiring.
#[export] Hint Resolve keepsWiring_ret keepsWiring_throw keepsWiring_gets
  keepsWiring_setValue keepsWiring_signal keepsWiring_getInputNodeValue : wiring.

Ltac wiring :=
  repeat first
    [ apply keepsWiring_bind; [|intros ?]
    | progress auto with wiring
    | match goal with
      | |- keepsWiring (if ?b then _ else _) => destruct b
      | |- keepsWiring (match ?x with _ => _ end) => destruct x
      end ].

Section WiringOfMethods.
Import UAAlarmConditionBase UAOffNormalAlarm_prototype.

Lemma keepsWiring_updateAlarmState n i : keepsWiring (_updateAlarmState n i).
Proof. unfold _updateAlarmState, activeState_getValue. wiring. Qed.

Lemma keepsWiring_getNormalStateNode sp : keepsWiring (getNormalStateNode sp).
Proof. unfold getNormalStateNode. wiring. Qed.

Hint Resolve keepsWiring_updateAlarmState keepsWiring_getNormalStateNode : wiring.

Lemma keepsWiring_method sp c : keepsWiring (UAOffNormalAlarm_method sp c).
Proof.
  destruct c; unfold UAOffNormalAlarm_method, returning, getNormalStateValue,
    setNormalStateValue, _onInputDataValueChange, _onNormalStateDataValueChange;
    wiring.
Qed.

Lemma keepsWiring_invoke sp c : keepsWiring (invoke sp c).
Proof.
  intros this. unfold invoke. destruct (resolve _ _) as [[]|]; try done.
  apply keepsWiring_method.
Qed.

Lemma withAlarm_alarm {R} a (m : AddressSpace -> Method Alarm R) sp alarmNode this :
  (forall sp, keepsWiring (m sp)) ->
  alarms sp !! alarmNode = Some this ->
  exists this', alarms (snd (withAlarm a m sp)) !! alarmNode = Some this' /\
                sameWiring this this'.
Proof.
  intros Hm Ha. unfold withAlarm.
  destruct (alarms sp !! a) as [x|] eqn:Hx; [|by exists this].
  specialize (Hm sp x). destruct (m sp x) as [r x']. simpl in *.
  destruct (decide (a = alarmNode)) as [->|Hne].
  - rewrite lookup_insert_eq. exists x'. by simplify_eq.
  - rewrite lookup_insert_ne by done. by exists this.
Qed.

Lemma runListener_alarm l dv sp alarmNode this :
  alarms sp !! alarmNode = Some this ->
  exists this', alarms (snd (runListener l dv sp)) !! alarmNode = Some this' /\
                sameWiring this this'.
Proof.
  intros Ha. destruct l; simpl; [| |by exists this]; unfold bind;
    match goal with
    | |- context [withAlarm ?a ?m sp] =>
        destruct (withAlarm_alarm a m sp alarmNode this) as (this' & H1 & H2);
          [intros ?; apply keepsWiring_invoke | done |];
        destruct (withAlarm a m sp) as [[r|e] sp']
    end; by exists this'.
Qed.

Lemma emitValueChanged_alarm ls e dv sp alarmNode this :
  alarms sp !! alarmNode = Some this ->
  exists this', alarms (snd (emitValueChanged ls e dv sp)) !! alarmNode = Some this' /\
                sameWiring this this'.
Proof.
  revert sp this. induction ls as [|[e' l] ls IH]; intros sp this Ha;
    [by exists this|].
  simpl. unfold bind at 1. destruct (bool_decide (e' = e)).
  - destruct (runListener_alarm l dv sp alarmNode this Ha) as (x & H1 & H2).
    destruct (runListener l dv sp) as [[r|ex] sp']; simpl in *; [|by exists x].
    destruct (IH sp' x H1) as (y & H3 & H4).
    exists y. split; [done|]. by eapply sameWiring_trans.
  - simpl. by apply IH.
Qed.

Lemma findNode_nodeId sp id node :
  findNode sp id = Some node -> findNode sp (Some (nodeId node)) = Some node.
Proof.
  unfold findNode. destruct id as [i|]; simpl; [|done].
  destruct (variables sp !! i) eqn:E; simpl; [|done].
  intros [= <-]. simpl. by rewrite E.
Qed.

Lemma findNode_insert sp sp' node dv id :
  variables sp' = <[node := dv]> (variables sp) ->
  is_Some (findNode sp id) -> is_Some (findNode sp' id).
Proof.
  unfold findNode. intros ->. destruct id as [i|]; simpl; [|by intros [? [=]]].
  destruct (decide (node = i)) as [->|Hne].
  - by rewrite lookup_insert_eq.
  - by rewrite lookup_insert_ne.
Qed.

(** A value change keeps the alarm wired. *)
Lemma valueChanged_wired alarmNode node dv sp :
  wired alarmNode sp -> wired alarmNode (snd (valueChanged node dv sp)).
Proof.
  intros (this & Ha & Hp & Hn).
  pose proof (valueChanged_variables node dv sp) as Hv.
  unfold valueChanged in *.
  destruct (emitValueChanged_alarm (listeners sp) (OnVariable node) dv
              (set_variables (insert node dv) sp) alarmNode this Ha)
    as (this' & Ha' & Hp' & _ & Hn' & _).
  exists this'. split; [done|]. split; [congruence|].
  rewrite <- Hn'. by eapply findNode_insert.
Qed.

End WiringOfMethods.

(** ** Bootstrap *)

Section Bootstrap.
Import UAAlarmConditionBase UAOffNormalAlarm_prototype UAOffNormalAlarm_static.

(** What a successful [instantiate] did. *)
Lemma instantiate_success base limitAlarmTypeId data h alarmNode h' :
  instantiate base limitAlarmTypeId data h = (Normal alarmNode, h') ->
  exists this0 inputNode normalState,
    base (addressSpace h) limitAlarmTypeId (withOptionals (options h)) data
      = Normal (alarmNode, this0) /\
    _coerceNode (addressSpace h) (options h !! "inputNode") = Some inputNode /\
    _coerceNode (addressSpace h) (options h !! "normalState") = Some normalState /\
    addressSpace h' =
      mkAddressSpace (eventTypes (addressSpace h)) (variables (addressSpace h))
        (<[alarmNode := wiredAlarm this0 (nodeId normalState) (nodeId inputNode)]>
           (alarms (addressSpace h)))
        (listeners (addressSpace h) ++
           [(OnVariable (nodeId inputNode), CallOnInputDataValueChange alarmNode);
            (OnNormalStateProperty alarmNode, NormalStateReplaced alarmNode);
            (OnVariable (nodeId normalState),
             CallOnNormalStateDataValueChange alarmNode)]).
Proof.
  unfold instantiate. intros H. monadInv H. simpl in *.
  unfold UADiscreteAlarm_instantiate in *. simpl in *.
  unfold withOptionals in *.
  destruct (base _ _ _ _) as [[id this0]|] eqn:Hbase; [|discriminate].
  match goal with
  | H : (Normal id, _) = (Normal _, _) |- _ => injection H as <- <-
  end.
  simpl in *. unfold _installInputNodeMonitoring in *.
  repeat match goal with
  | H : bind _ _ _ = (Normal _, _) |- _ => monadInv H; simpl in *
  | H : withAlarm ?a ?m ?sp = (Normal _, _) |- _ =>
      erewrite withAlarm_found in H by (simpl; apply lookup_insert_eq);
      injection H as ? <-; simpl in *
  | H : modify _ _ = (Normal _, _) |- _ => injection H as ? <-; simpl in *
  end.
  match goal with
  | E0 : _coerceNode _ (_ !! "inputNode") = Some ?u,
    E1 : _coerceNode _ (_ !! "normalState") = Some ?u0 |- _ =>
      exists this0, u, u0; split; [done|];
      rewrite lookup_insert_ne in E0, E1 by done;
      split; [exact E0|]; split; [exact E1|]
  end.
  unfold set_alarms, on, wiredAlarm. simpl.
  by rewrite !insert_insert_eq, <- !app_assoc.
Qed.

Lemma _coerceNode_findNode sp ref node :
  _coerceNode sp ref = Some node -> findNode sp (Some (nodeId node)) = Some node.
Proof.
  destruct ref as [[id|l|v]|]; try done.
  intros H. exact (findNode_nodeId sp (Some id) node H).
Qed.

Lemma instantiate_wired base limitAlarmTypeId data h alarmNode h' :
  instantiate base limitAlarmTypeId data h = (Normal alarmNode, h') ->
  wired alarmNode (addressSpace h').
Proof.
  intros H. apply instantiate_success in H
    as (this0 & inp & ns & _ & _ & Hns & ->).
  exists (wiredAlarm this0 (nodeId ns) (nodeId inp)). simpl.
  split; [apply lookup_insert_eq|]. split; [done|].
  apply _coerceNode_findNode in Hns. unfold findNode in *. simpl in *.
  by rewrite Hns.
Qed.

(** In an address space without listeners, [instantiate] on two distinct
    entities leaves the alarm wired to them. *)
Lemma instantiate_wiredTo base limitAlarmTypeId data h alarmNode h' :
  listeners (addressSpace h) = [] ->
  instantiate base limitAlarmTypeId data h = (Normal alarmNode, h') ->
  exists this0 inp ns,
    _coerceNode (addressSpace h) (options h !! "inputNode") = Some inp /\
    _coerceNode (addressSpace h) (options h !! "normalState") = Some ns /\
    (nodeId inp <> nodeId ns ->
     wiredTo alarmNode (nodeId inp) (nodeId ns)
       (wiredAlarm this0 (nodeId ns) (nodeId inp)) (addressSpace h')).
Proof.
  intros Hl H. apply instantiate_success in H
    as (this0 & inp & ns & _ & Hinp & Hns & ->).
  exists this0, inp, ns. split; [done|]. split; [done|].
  intros Hne. unfold wiredTo. simpl. rewrite Hl, lookup_insert_eq. done.
Qed.

Lemma reachable_wired alarmNode sp : reachable alarmNode sp -> wired alarmNode sp.
Proof.
  induction 1 as [base t data h h' _ _ H | sp node dv sp' _ IH H].
  - by eapply instantiate_wired.
  - replace sp' with (snd (valueChanged node dv sp)) by by rewrite H.
    by apply valueChanged_wired.
Qed.

(** C5: a successful [instantiate] ends with one run of the comparator on
    [(undefined, undefined)], made on the alarm object as built and wired;
    that run takes the unknown-value branch, so the alarm starts inactive,
    with no condition signalled by the run, whatever values the input and
    the normal-state nodes hold (they are not read and not changed) and
    whatever active state the base construction left. *)
Theorem C5_bootstrap_starts_inactive (base : BaseInstantiate)
    (limitAlarmTypeId : string) (data : Js.Value) (h h' : Heap) (alarmNode : NodeId)
    (H : instantiate base limitAlarmTypeId data h = (Normal alarmNode, h')) :
  exists (this0 : Alarm) (inputNode normalState : UAVariable),
    let this1 := set_inputNode (Some (nodeId inputNode))
                   (set_normalState (Some (nodeId normalState))
                      (set_proto UAOffNormalAlarm this0)) in
    base (addressSpace h) limitAlarmTypeId (withOptionals (options h)) data
      = Normal (alarmNode, this0) /\
    alarms (addressSpace h') !! alarmNode
      = Some (snd (_updateAlarmState Js.undefined Js.undefined this1)) /\
    activeStateOf (addressSpace h') alarmNode = Some false /\
    signalledOf (addressSpace h') alarmNode = Some (signalled this0) /\
    variables (addressSpace h') = variables (addressSpace h).
Proof.
  apply instantiate_success in H as (this0 & inp & ns & Hb & _ & _ & ->).
  exists this0, inp, ns. simpl. split; [done|].
  unfold activeStateOf, signalledOf. simpl. by rewrite lookup_insert_eq.
Qed.

Lemma plant_instantiate :
  fst (instantiate Plant.base0 "OffNormalAlarmType" Js.undefined Plant.heap0)
    = Normal Plant.alarmId.
Proof. vm_compute. reflexivity. Qed.

Lemma C5_witness :
  exists h',
    instantiate Plant.base0 "OffNormalAlarmType" Js.undefined Plant.heap0
      = (Normal Plant.alarmId, h') /\
    activeStateOf (addressSpace h') Plant.alarmId = Some false.
Proof.
  pose proof (pair_fst_snd _ _ plant_instantiate) as H.
  eexists. split; [exact H|].
  destruct (C5_bootstrap_starts_inactive _ _ _ _ _ _ H)
    as (this0 & inp & ns & _ & _ & Hactive & _).
  exact Hactive.
Defined.

(** C7: when [options] lacks the key [inputNode] or the key
    [normalState], [instantiate] throws the exception of one of its entry
    guards and the heap is exactly what it was: no alarm object has been
    built (the base construction is not called, so the outcome does not
    depend on it), no listener has been installed and [options] has not
    been touched.  When the address space knows the alarm type, the
    exception is the assertion failure for the missing key. *)
Theorem C7_missing_option_aborts_first (base : BaseInstantiate)
    (limitAlarmTypeId : string) (data : Js.Value) (h : Heap)
    (Hmissing : hasOwnProperty (options h) "inputNode" = false \/
                hasOwnProperty (options h) "normalState" = false) :
  exists e : Exception,
    instantiate base limitAlarmTypeId data h = (Throw e, h) /\
    preconditionViolation e /\
    (is_Some (findEventType (addressSpace h) "OffNormalAlarmType") ->
       e = AssertionError "must provide inputNode" \/
       e = AssertionError "must provide a normalState Node") /\
    (forall base' : BaseInstantiate,
       instantiate base' limitAlarmTypeId data h = (Throw e, h)).
Proof.
  unfold instantiate, bind, gets, preconditionViolation. simpl.
  destruct (findEventType _ _) as [t|].
  - destruct (hasOwnProperty (options h) "inputNode") eqn:Hin; simpl.
    + destruct Hmissing as [Hm | Hm]; [done|]. rewrite Hm. simpl.
      exists (AssertionError "must provide a normalState Node"). eauto 10.
    + exists (AssertionError "must provide inputNode"). eauto 10.
  - exists (Error "cannot find offNormalAlarmType").
    repeat split; eauto. by intros [? [=]].
Qed.

Lemma C7_witness :
  instantiate Plant.base0 "OffNormalAlarmType" Js.undefined
    (mkHeap Plant.space0 (<["inputNode" := OptNode Plant.inputId]> ∅))
  = (Throw (AssertionError "must provide a normalState Node"),
     mkHeap Plant.space0 (<["inputNode" := OptNode Plant.inputId]> ∅)).
Proof.
  assert (Hmissing :
    hasOwnProperty (<["inputNode" := OptNode Plant.inputId]> ∅) "inputNode" = false \/
    hasOwnProperty (<["inputNode" := OptNode Plant.inputId]> ∅) "normalState" = false)
    by (right; reflexivity).
  destruct (C7_missing_option_aborts_first Plant.base0 "OffNormalAlarmType"
              Js.undefined
              (mkHeap Plant.space0 (<["inputNode" := OptNode Plant.inputId]> ∅))
              Hmissing) as (e & He & _ & Hkind & _).
  destruct Hkind as [-> | ->]; [by eexists | | exact He].
  exfalso. revert He. vm_compute. discriminate.
Defined.

End Bootstrap.

(** ** The unsupported write, the silent deactivation *)

Section Lifetime.
Import UAAlarmConditionBase UAOffNormalAlarm_prototype UAOffNormalAlarm_static.

Lemma setNormalStateValue_throws sp value this :
  setNormalStateValue sp value this
    = match findNode sp (normalState this) with
      | Some _ => (Throw (Error "Not Implemented yet"), this)
      | None => (Throw (AssertionError "getNormalStateNode "), this)
      end.
Proof.
  unfold setNormalStateValue, getNormalStateNode, bind, gets. simpl.
  by destruct (findNode sp (normalState this)).
Qed.

(** C8: whatever the value, [setNormalStateValue] never completes
    normally and leaves the alarm object as it was; on every alarm that
    [instantiate] built, at any later time, it throws the error "Not
    Implemented yet", also when called through the prototype chain. *)
Theorem C8_setNormalStateValue_always_fails (sp : AddressSpace) (value : Js.Value)
    (this : Alarm) (alarmNode : NodeId)
    (Hreach : reachable alarmNode sp)
    (Hthis : alarms sp !! alarmNode = Some this) :
  setNormalStateValue sp value this = (Throw (Error "Not Implemented yet"), this) /\
  invoke sp (setNormalStateValue_ value) this
    = (Throw (Error "Not Implemented yet"), this) /\
  (forall (sp' : AddressSpace) (this' : Alarm),
     completed (setNormalStateValue sp' value this') = false /\
     snd (setNormalStateValue sp' value this') = this').
Proof.
  apply reachable_wired in Hreach as (this1 & Ha & Hp & [node Hn]).
  assert (this1 = this) as -> by congruence.
  assert (H : setNormalStateValue sp value this
              = (Throw (Error "Not Implemented yet"), this)).
  { by rewrite setNormalStateValue_throws, Hn. }
  split; [done|]. split.
  - unfold invoke. rewrite Hp. simpl. unfold returning, bind. by rewrite H.
  - intros sp' this'. rewrite setNormalStateValue_throws.
    by destruct (findNode sp' (normalState this')).
Qed.

(** The plant after its instantiation. *)
Lemma plant_reachable :
  reachable Plant.alarmId
    (addressSpace
       (snd (instantiate Plant.base0 "OffNormalAlarmType" Js.undefined Plant.heap0))).
Proof.
  eapply (reachable_instantiate _ Plant.base0 "OffNormalAlarmType" Js.undefined
            Plant.heap0); [done | done |].
  apply pair_fst_snd, plant_instantiate.
Qed.

Lemma reachable_step alarmNode sp node dv :
  reachable alarmNode sp ->
  fst (valueChanged node dv sp) = Normal tt ->
  reachable alarmNode (snd (valueChanged node dv sp)).
Proof.
  intros Hr Hf. eapply reachable_valueChanged; [exact Hr|].
  by apply pair_fst_snd.
Qed.

Lemma C8_witness :
  setNormalStateValue
    (addressSpace
       (snd (instantiate Plant.base0 "OffNormalAlarmType" Js.undefined Plant.heap0)))
    (Js.ofZ 42) Plant.alarm0
  = (Throw (Error "Not Implemented yet"), Plant.alarm0).
Proof.
  assert (Hthis :
    alarms (addressSpace
              (snd (instantiate Plant.base0 "OffNormalAlarmType" Js.undefined
                      Plant.heap0))) !! Plant.alarmId = Some Plant.alarm0)
    by (vm_compute; reflexivity).
  exact (proj1 (C8_setNormalStateValue_always_fails _ (Js.ofZ 42) Plant.alarm0
                  Plant.alarmId plant_reachable Hthis)).
Defined.

(** C9: there is an address space, reached by instantiating the alarm and
    notifying value changes, in which the alarm is active, and a delivery
    on the input stream with status [Good] and a non-null value after
    which the alarm is inactive although no condition has been signalled:
    the normal-state value read for the comparator is null. *)
Theorem C9_silent_deactivation :
  exists (alarmNode : NodeId) (sp : AddressSpace) (node : NodeId)
         (dataValue : DataValue.t),
    reachable alarmNode sp /\
    DataValue.statusCode dataValue = StatusCodes.Good /\
    Variant.dataType (DataValue.value dataValue) <> DataType.Null /\
    isNullOrUndefined (Variant.value (DataValue.value dataValue)) = false /\
    (exists this, alarms sp !! alarmNode = Some this /\
                  inputNode this = Some node /\
                  fst (getNormalStateValue sp this) = Normal Js.null) /\
    activeStateOf sp alarmNode = Some true /\
    fst (valueChanged node dataValue sp) = Normal tt /\
    activeStateOf (snd (valueChanged node dataValue sp)) alarmNode = Some false /\
    signalledOf (snd (valueChanged node dataValue sp)) alarmNode
      = signalledOf sp alarmNode.
Proof.
  set (sp1 := addressSpace
                (snd (instantiate Plant.base0 "OffNormalAlarmType" Js.undefined
                        Plant.heap0))).
  set (sp2 := snd (valueChanged Plant.inputId (Plant.int32 7) sp1)).
  set (sp3 := snd (valueChanged Plant.normalId
                     (DataValue.good DataType.Null Js.null) sp2)).
  exists Plant.alarmId, sp3, Plant.inputId, (Plant.int32 8).
  split.
  { apply reachable_step; [|by vm_compute].
    apply reachable_step; [|by vm_compute].
    apply plant_reachable. }
  split; [done|]. split; [done|]. split; [done|]. split.
  { eexists. split; [by vm_compute|]. split; by vm_compute. }
  repeat split; by vm_compute.
Qed.

End Lifetime.

(** ** The system off-normal alarm *)

Section IdentityBlind.
Import UAAlarmConditionBase UAOffNormalAlarm_prototype.

Lemma identityBlind_ret {R} (r : R) : identityBlind (ret r).
Proof. by intros c t this. Qed.

Lemma identityBlind_throw {R} e : identityBlind (@throw Alarm R e).
Proof. by intros c t this. Qed.

Lemma identityBlind_gets {R} (f : Alarm -> R) :
  (forall c t this, f (retag c t this) = f this) -> identityBlind (gets f).
Proof. intros Hf c t this. unfold gets. simpl. by rewrite Hf. Qed.

Lemma identityBlind_modify (f : Alarm -> Alarm) :
  (forall c t this, f (retag c t this) = retag c t (f this)) ->
  identityBlind (modify f).
Proof. intros Hf c t this. unfold modify. simpl. by rewrite Hf. Qed.

Lemma identityBlind_bind {A B} (m : Method Alarm A) (k : A -> Method Alarm B) :
  identityBlind m -> (forall a, identityBlind (k a)) -> identityBlind (bind m k).
Proof.
  intros Hm Hk c t this. unfold bind. rewrite Hm.
  destruct (m this) as [[a|e] this']; simpl; [|done]. apply Hk.
Qed.

Lemma identityBlind_getInputNodeValue sp : identityBlind (getInputNodeValue sp).
Proof.
  intros c t this. unfold getInputNodeValue. simpl.
  by destruct (findNode sp (inputNode this)).
Qed.

End IdentityBlind.

Create HintDb blind.
#[export] Hint Resolve identityBlind_ret identityBlind_throw
  identityBlind_getInputNodeValue : blind.

Ltac blind :=
  repeat first
    [ apply identityBlind_bind; [|intros ?]
    | apply identityBlind_gets; done
    | apply identityBlind_modify; done
    | progress auto with blind
    | match goal with
      | |- identityBlind (if ?b then _ else _) => destruct b
      | |- identityBlind (match ?x with _ => _ end) => destruct x
      end ].

Section SystemOffNormalAlarm.
Import UAAlarmConditionBase UAOffNormalAlarm_prototype UAOffNormalAlarm_static.

Lemma identityBlind_updateAlarmState n i : identityBlind (_updateAlarmState n i).
Proof.
  unfold _updateAlarmState, activeState_getValue, activeState_setValue,
    _signalNewCondition. blind.
Qed.

Lemma identityBlind_getNormalStateNode sp : identityBlind (getNormalStateNode sp).
Proof. unfold getNormalStateNode. blind. Qed.

Hint Resolve identityBlind_updateAlarmState identityBlind_getNormalStateNode : blind.

Lemma identityBlind_method sp c : identityBlind (UAOffNormalAlarm_method sp c).
Proof.
  destruct c; unfold UAOffNormalAlarm_method, returning, getNormalStateValue,
    setNormalStateValue, _onInputDataValueChange, _onNormalStateDataValueChange;
    blind.
Qed.

(** The chain is the one the calls of [util.inherits] build. *)
Lemma prototypeChain_super c :
  prototypeChain c = c :: from_option prototypeChain [] (super_ c).
Proof. by destruct c. Qed.

Lemma resolve_off_normal m : resolve UAOffNormalAlarm m = Some UAOffNormalAlarm.
Proof. done. Qed.

Lemma resolve_system m : resolve UASystemOffNormalAlarm m = Some UAOffNormalAlarm.
Proof. done. Qed.

Lemma invoke_system sp c t this :
  proto this = UAOffNormalAlarm ->
  invoke sp c (retag UASystemOffNormalAlarm t this)
    = (fst (invoke sp c this),
       retag UASystemOffNormalAlarm t (snd (invoke sp c this))).
Proof.
  intros Hp. unfold invoke. rewrite Hp. simpl proto.
  rewrite resolve_system, resolve_off_normal. apply identityBlind_method.
Qed.

Lemma invokeAll_system calls t this :
  proto this = UAOffNormalAlarm ->
  invokeAll calls (retag UASystemOffNormalAlarm t this)
    = (fst (invokeAll calls this),
       retag UASystemOffNormalAlarm t (snd (invokeAll calls this))).
Proof.
  revert this. induction calls as [|[sp c] calls IH]; intros this Hp; [done|].
  simpl. rewrite invoke_system by done.
  pose proof (keepsWiring_invoke sp c this) as (Hp' & _).
  destruct (invoke sp c this) as [r this']. simpl in *.
  rewrite IH by congruence.
  by destruct (invokeAll calls this').
Qed.

(** The methods read the address space for the values of its nodes only. *)
Lemma findNode_variables sp sp' id :
  variables sp = variables sp' -> findNode sp id = findNode sp' id.
Proof. unfold findNode. by intros ->. Qed.

Lemma method_variables sp sp' c this :
  variables sp = variables sp' ->
  UAOffNormalAlarm_method sp c this = UAOffNormalAlarm_method sp' c this.
Proof.
  intros Hv.
  assert (Hnode : forall x, getNormalStateNode sp x = getNormalStateNode sp' x).
  { intros x. unfold getNormalStateNode, bind, gets. simpl.
    by rewrite (findNode_variables sp sp'). }
  assert (Hin : forall x, getInputNodeValue sp x = getInputNodeValue sp' x).
  { intros x. unfold getInputNodeValue. by rewrite (findNode_variables sp sp'). }
  assert (Hval : forall x, getNormalStateValue sp x = getNormalStateValue sp' x).
  { intros x. unfold getNormalStateValue, bind. by rewrite Hnode. }
  destruct c; unfold UAOffNormalAlarm_method, returning, setNormalStateValue,
    _onInputDataValueChange, _onNormalStateDataValueChange;
    repeat (match goal with |- context [if ?b then _ else _] => destruct b end);
    unfold bind; rewrite ?Hnode, ?Hin, ?Hval; done.
Qed.

Lemma invoke_variables sp sp' c this :
  variables sp = variables sp' -> invoke sp c this = invoke sp' c this.
Proof.
  intros Hv. unfold invoke. destruct (resolve _ _) as [[]|]; try done.
  by apply method_variables.
Qed.

Lemma withAlarm_system a c alarmNode t sp this :
  alarms sp !! alarmNode = Some this -> proto this = UAOffNormalAlarm ->
  withAlarm a (fun sp => invoke sp c) (asSystem alarmNode t sp)
    = (fst (withAlarm a (fun sp => invoke sp c) sp),
       asSystem alarmNode t (snd (withAlarm a (fun sp => invoke sp c) sp))).
Proof.
  intros Ha Hp. unfold withAlarm. simpl.
  destruct (decide (a = alarmNode)) as [->|Hne].
  - rewrite lookup_alter_eq, Ha. simpl.
    rewrite (invoke_variables (asSystem alarmNode t sp) sp) by done.
    rewrite invoke_system by done.
    destruct (invoke sp c this) as [r this']. simpl.
    f_equal. unfold asSystem, set_alarms. simpl.
    by rewrite insert_alter_eq, alter_insert_eq.
  - rewrite lookup_alter_ne by done.
    destruct (alarms sp !! a) as [x|]; [|done].
    rewrite (invoke_variables (asSystem alarmNode t sp) sp) by done.
    destruct (invoke sp c x) as [r x']. simpl.
    f_equal. unfold asSystem, set_alarms. simpl.
    by rewrite alter_insert_ne.
Qed.

Lemma runListener_system l dv alarmNode t sp this :
  alarms sp !! alarmNode = Some this -> proto this = UAOffNormalAlarm ->
  runListener l dv (asSystem alarmNode t sp)
    = (fst (runListener l dv sp), asSystem alarmNode t (snd (runListener l dv sp))).
Proof.
  intros Ha Hp. destruct l; simpl; [| |done]; unfold bind;
    rewrite (withAlarm_system _ _ alarmNode t sp this) by done;
    match goal with
    | |- context [withAlarm ?a ?m sp] => destruct (withAlarm a m sp) as [[r|e] sp']
    end; done.
Qed.

Lemma emitValueChanged_system ls e dv alarmNode t sp this :
  alarms sp !! alarmNode = Some this -> proto this = UAOffNormalAlarm ->
  emitValueChanged ls e dv (asSystem alarmNode t sp)
    = (fst (emitValueChanged ls e dv sp),
       asSystem alarmNode t (snd (emitValueChanged ls e dv sp))).
Proof.
  revert sp this. induction ls as [|[e' l] ls IH]; intros sp this Ha Hp; [done|].
  simpl. unfold bind at 1 2 3. destruct (bool_decide (e' = e)).
  - rewrite (runListener_system l dv alarmNode t sp this) by done.
    destruct (runListener_alarm l dv sp alarmNode this Ha) as (x & Hx & Hw & _).
    destruct (runListener l dv sp) as [[r|ex] sp']; simpl in *; [|done].
    apply (IH sp' x); [done|congruence].
  - simpl. by apply (IH sp this).
Qed.

Lemma valueChanged_system node dv alarmNode t sp this :
  alarms sp !! alarmNode = Some this -> proto this = UAOffNormalAlarm ->
  valueChanged node dv (asSystem alarmNode t sp)
    = (fst (valueChanged node dv sp),
       asSystem alarmNode t (snd (valueChanged node dv sp))).
Proof.
  intros Ha Hp. unfold valueChanged.
  change (set_variables (insert node dv) (asSystem alarmNode t sp))
    with (asSystem alarmNode t (set_variables (insert node dv) sp)).
  change (listeners (asSystem alarmNode t sp)) with (listeners sp).
  by apply (emitValueChanged_system _ _ _ _ _ _ this).
Qed.

Lemma notifyAll_system changes alarmNode t sp this :
  alarms sp !! alarmNode = Some this -> proto this = UAOffNormalAlarm ->
  notifyAll changes (asSystem alarmNode t sp)
    = (fst (notifyAll changes sp), asSystem alarmNode t (snd (notifyAll changes sp))).
Proof.
  revert sp this. induction changes as [|[node dv] changes IH];
    intros sp this Ha Hp; [done|].
  simpl. rewrite (valueChanged_system node dv alarmNode t sp this) by done.
  destruct (emitValueChanged_alarm (listeners sp) (OnVariable node) dv
              (set_variables (insert node dv) sp) alarmNode this Ha)
    as (x & Hx & Hw & _).
  fold (valueChanged node dv sp) in Hx.
  destruct (valueChanged node dv sp) as [r sp']. simpl in *.
  rewrite (IH sp' x) by (done || congruence).
  by destruct (notifyAll changes sp').
Qed.

(** C10: the system off-normal alarm adds no method and no field: each
    method name resolves, along its prototype chain, to the function of
    [UAOffNormalAlarm.prototype], and its constructor body changes nothing;
    so any run of calls on an alarm object seen as a system off-normal
    alarm, and any run of value changes delivered to it in an address
    space, completes as for the off-normal alarm and leaves the same state
    but for the type identity, with the same active state and the same
    signalled conditions; and [instantiate] hands the alarm type it is given
    to the base construction without looking at it. *)
Theorem C10_system_alarm_same_behaviour (calls : list (AddressSpace * Call))
    (changes : list (NodeId * DataValue.t)) (t : string) (this : Alarm)
    (sp : AddressSpace) (alarmNode : NodeId)
    (Hproto : proto this = UAOffNormalAlarm)
    (Hthis : alarms sp !! alarmNode = Some this) :
  (forall m, hasOwnMethod UASystemOffNormalAlarm m = false) /\
  (forall m, resolve UASystemOffNormalAlarm m = resolve UAOffNormalAlarm m) /\
  UASystemOffNormalAlarm_constructor this = (Normal tt, this) /\
  (let system := invokeAll calls (retag UASystemOffNormalAlarm t this) in
   let offNormal := invokeAll calls this in
   fst system = fst offNormal /\
   snd system = retag UASystemOffNormalAlarm t (snd offNormal) /\
   activeState (snd system) = activeState (snd offNormal) /\
   signalled (snd system) = signalled (snd offNormal)) /\
  (let system := notifyAll changes (asSystem alarmNode t sp) in
   let offNormal := notifyAll changes sp in
   fst system = fst offNormal /\
   snd system = asSystem alarmNode t (snd offNormal) /\
   variables (snd system) = variables (snd offNormal) /\
   activeStateOf (snd system) alarmNode = activeStateOf (snd offNormal) alarmNode /\
   signalledOf (snd system) alarmNode = signalledOf (snd offNormal) alarmNode) /\
  (forall base t' data h,
     instantiate base t data h = instantiate (fun sp _ => base sp t) t' data h).
Proof.
  split; [done|]. split; [done|]. split; [done|]. split; [|split; [|done]].
  - simpl. by rewrite invokeAll_system.
  - simpl. rewrite (notifyAll_system changes alarmNode t sp this) by done. simpl.
    split; [done|]. split; [done|]. split; [done|].
    unfold activeStateOf, signalledOf, asSystem. simpl. rewrite lookup_alter_eq.
    by destruct (alarms (snd (notifyAll changes sp)) !! alarmNode).
Qed.

Lemma C10_witness :
  fst (invokeAll [(Plant.space0, _onInputDataValueChange_ (Plant.int32 7));
                  (Plant.space0, setNormalStateValue_ (Js.ofZ 1))]
         (retag UASystemOffNormalAlarm "SystemOffNormalAlarmType" Plant.alarm0))
  = fst (invokeAll [(Plant.space0, _onInputDataValueChange_ (Plant.int32 7));
                    (Plant.space0, setNormalStateValue_ (Js.ofZ 1))]
           Plant.alarm0) /\
  fst (notifyAll [(Plant.inputId, Plant.int32 42); (Plant.normalId, Plant.int32 7)]
         (asSystem Plant.alarmId "SystemOffNormalAlarmType"
            (set_alarms (insert Plant.alarmId Plant.alarm0) Plant.space0)))
  = fst (notifyAll [(Plant.inputId, Plant.int32 42); (Plant.normalId, Plant.int32 7)]
           (set_alarms (insert Plant.alarmId Plant.alarm0) Plant.space0)).
Proof.
  assert (Hthis :
    alarms (set_alarms (insert Plant.alarmId Plant.alarm0) Plant.space0)
      !! Plant.alarmId = Some Plant.alarm0) by reflexivity.
  pose proof (C10_system_alarm_same_behaviour
                [(Plant.space0, _onInputDataValueChange_ (Plant.int32 7));
                 (Plant.space0, setNormalStateValue_ (Js.ofZ 1))]
                [(Plant.inputId, Plant.int32 42); (Plant.normalId, Plant.int32 7)]
                "SystemOffNormalAlarmType" Plant.alarm0
                (set_alarms (insert Plant.alarmId Plant.alarm0) Plant.space0)
                Plant.alarmId eq_refl Hthis) as H.
  split.
  - exact (proj1 (proj1 (proj2 (proj2 (proj2 H))))).
  - exact (proj1 (proj1 (proj2 (proj2 (proj2 (proj2 H)))))).
Defined.

End SystemOffNormalAlarm.

(** ** The scenario of the test plan, on the plant *)

Section Scenario.
Import UAOffNormalAlarm_prototype UAOffNormalAlarm_static.

(** Normal state 42.  Input 42: inactive, nothing signalled.  Input 7:
    active, ("Active", true, "").  Input 7 again: nothing new.  Normal
    state 7: inactive, ("Inactive", false, ""). *)
Example scenario_normal_42 :
  let sp0 := addressSpace
               (snd (instantiate Plant.base0 "OffNormalAlarmType" Js.undefined
                       Plant.heap0)) in
  let sp1 := snd (valueChanged Plant.inputId (Plant.int32 42) sp0) in
  let sp2 := snd (valueChanged Plant.inputId (Plant.int32 7) sp1) in
  let sp3 := snd (valueChanged Plant.inputId (Plant.int32 7) sp2) in
  let sp4 := snd (valueChanged Plant.normalId (Plant.int32 7) sp3) in
  Plant.observe sp1 = (Some false, Some []) /\
  Plant.observe sp2 = (Some true, Some [mkEvent "Active" true ""]) /\
  Plant.observe sp3 = (Some true, Some [mkEvent "Active" true ""]) /\
  Plant.observe sp4 = (Some false, Some [mkEvent "Active" true "";
                                   mkEvent "Inactive" false ""]).
Proof. repeat split; by vm_compute. Qed.

(** [===] does not convert: the number 1 differs from the string "1" and
    from [true]; NaN differs from itself. *)
Example strict_equality_does_not_convert :
  isEqual (Js.ofZ 1) (Js.str "1") = false /\
  isEqual (Js.ofZ 1) (Js.boolean true) = false /\
  isEqual Js.null Js.undefined = false /\
  isEqual (Js.number S754_nan) (Js.number S754_nan) = false /\
  isEqual (Js.ofZ 0) (Js.number (S754_zero true)) = true.
Proof. repeat split. Qed.

End Scenario.

(** ** Strict equality and the comparator *)

Section StrictEquality.
Import UAAlarmConditionBase UAOffNormalAlarm_prototype.

Lemma SFeqb_sym f1 f2 : SFeqb f1 f2 = SFeqb f2 f1.
Proof.
  unfold SFeqb, SFcompare.
  destruct f1 as [s1|s1| |s1 m1 e1], f2 as [s2|s2| |s2 m2 e2]; try done;
    try (by destruct s1, s2); try (by destruct s1); try (by destruct s2).
  change (Pos.compare_cont Eq m1 m2) with (Pos.compare m1 m2).
  change (Pos.compare_cont Eq m2 m1) with (Pos.compare m2 m1).
  rewrite (Z.compare_antisym e1 e2), (Pos.compare_antisym m1 m2).
  by destruct s1, s2, (e1 ?= e2)%Z, (m1 ?= m2)%positive.
Qed.

(** Two doubles are equal exactly when they are the same double and not
    NaN, or when both are zeros. *)
Lemma SFeqb_true f1 f2 :
  SFeqb f1 f2 = true <->
  (f1 = f2 /\ f1 <> S754_nan) \/
  (exists s1 s2, f1 = S754_zero s1 /\ f2 = S754_zero s2).
Proof.
  unfold SFeqb, SFcompare.
  destruct f1 as [s1|s1| |s1 m1 e1], f2 as [s2|s2| |s2 m2 e2];
    try change (Pos.compare_cont Eq m1 m2) with (Pos.compare m1 m2);
    try destruct (Z.compare_spec e1 e2) as [->|Hzl|Hzg];
    try destruct (Pos.compare_spec m1 m2) as [->|Hlt|Hgt];
    try destruct s1; try destruct s2; simpl;
    (split; [intros Heq; try discriminate Heq
            | intros [[He Hn]|(a & b & Ha & Hb)]; try discriminate; try congruence]);
    try (by left); try (by right; eauto);
    try (injection He; intros; subst; lia).
Qed.

Lemma strictEquals_sym v1 v2 : Js.strictEquals v1 v2 = Js.strictEquals v2 v1.
Proof.
  destruct v1, v2; simpl; try done.
  - by destruct b, b0.
  - apply SFeqb_sym.
  - apply String.eqb_sym.
  - apply N.eqb_sym.
Qed.

Lemma strictEquals_true v1 v2 :
  Js.strictEquals v1 v2 = true <->
  (v1 = v2 /\ isNaN v1 = false) \/ (isZero v1 = true /\ isZero v2 = true).
Proof.
  destruct v1 as [| |b1|f1|s1|r1], v2 as [| |b2|f2|s2|r2]; simpl;
    try (split; [done | by intros [[? ?]|[? ?]]]);
    try (split; [by left | done]).
  - split.
    + intros H. apply Bool.eqb_prop in H. subst. by left.
    + intros [[[= ->] _]|[? ?]]; [|done]. by destruct b2.
  - rewrite SFeqb_true. split.
    + intros [[-> Hn]|(a & b & -> & ->)]; [left|by right].
      split; [done|]. by destruct f2.
    + intros [[[= ->] Hn]|[Hz1 Hz2]].
      * left. split; [done|]. by destruct f2.
      * right. destruct f1, f2; try done. eauto.
  - split.
    + intros H. apply String.eqb_eq in H. subst. by left.
    + intros [[[= ->] _]|[? ?]]; [|done]. apply String.eqb_refl.
  - split.
    + intros H. apply N.eqb_eq in H. subst. by left.
    + intros [[[= ->] _]|[? ?]]; [|done]. apply N.eqb_refl.
Qed.

(** X1: the comparator does not tell its two arguments apart: [isEqual]
    is symmetric, and [_updateAlarmState] called with the normal-state
    value and the input value exchanged gives the same completion and
    leaves the alarm object in the same state. *)
Theorem X1_comparator_symmetric (n i : Js.Value) (this : Alarm) :
  isEqual n i = isEqual i n /\
  _updateAlarmState n i this = _updateAlarmState i n this.
Proof.
  assert (Hs : isEqual n i = isEqual i n) by apply strictEquals_sym.
  split; [done|].
  unfold _updateAlarmState. rewrite Hs.
  by rewrite (orb_comm (isNullOrUndefined n)).
Qed.

(** X2: for two known values, [_updateAlarmState] leaves the alarm
    inactive exactly when the two values are the same value and not NaN,
    or are both zeros (of either sign); so a NaN input is active against
    every normal state, NaN included. *)
Theorem X2_inactive_exactly_on_identical_values (n i : Js.Value) (this : Alarm)
    (Hn : isNullOrUndefined n = false) (Hi : isNullOrUndefined i = false) :
  activeState (snd (_updateAlarmState n i this)) = false <->
  (n = i /\ isNaN n = false) \/ (isZero n = true /\ isZero i = true).
Proof.
  rewrite _updateAlarmState_activeState. unfold computedActive.
  rewrite Hn, Hi. simpl. rewrite negb_false_iff. apply strictEquals_true.
Qed.

Lemma X2_witness :
  activeState (snd (_updateAlarmState (Js.ofZ 5) (Js.ofZ 5) Plant.alarm0)) = false /\
  activeState (snd (_updateAlarmState (Js.number S754_nan) (Js.number S754_nan)
                      Plant.alarm0)) <> false.
Proof.
  split.
  - apply (proj2 (X2_inactive_exactly_on_identical_values (Js.ofZ 5) (Js.ofZ 5)
                    Plant.alarm0 eq_refl eq_refl)).
    left. split; reflexivity.
  - intros H.
    apply (proj1 (X2_inactive_exactly_on_identical_values (Js.number S754_nan)
                    (Js.number S754_nan) Plant.alarm0 eq_refl eq_refl)) in H.
    destruct H as [[_ H]|[H _]]; discriminate H.
Defined.

End StrictEquality.

(** ** The signalled conditions *)

Section ConditionLog.
Import UAAlarmConditionBase UAOffNormalAlarm_prototype.

Lemma _updateAlarmState_signalled n i this :
  exists evs,
    signalled (snd (_updateAlarmState n i this)) = (signalled this ++ evs)%list /\
    Forall wellFormedEvent evs /\ length evs <= 1.
Proof.
  destruct (isNullOrUndefined n || isNullOrUndefined i) eqn:H.
  - rewrite _updateAlarmState_unknown by done. exists []. simpl.
    rewrite app_nil_r. split; [done|]. split; [done|]. lia.
  - apply orb_false_elim in H as [Hn Hi].
    rewrite _updateAlarmState_known by done.
    destruct (Bool.eqb _ _) eqn:E.
    + exists []. simpl. rewrite app_nil_r.
      split; [done|]. split; [done|]. lia.
    + eexists [_]. simpl. split; [done|]. split; [|lia].
      constructor; [|done]. by split.
Qed.

(** What a method leaves of [this]: the object as it was, or as one run of
    the comparator leaves it. *)
Lemma method_outcome sp c this :
  snd (UAOffNormalAlarm_method sp c this) = this \/
  exists n i, snd (UAOffNormalAlarm_method sp c this) = snd (_updateAlarmState n i this).
Proof.
  destruct c; simpl; unfold returning, bind.
  - left. unfold getNormalStateNode, bind, gets. simpl. by destruct (findNode _ _).
  - left. unfold getNormalStateValue, getNormalStateNode, bind, gets. simpl.
    by destruct (findNode _ _).
  - left. unfold setNormalStateValue, getNormalStateNode, bind, gets. simpl.
    by destruct (findNode _ _).
  - right. exists normalStateValue, inputValue.
    by destruct (_updateAlarmState _ _ _) as [[[]|e] s].
  - unfold _onInputDataValueChange.
    destruct (negb _); [by left|]. destruct (bool_decide _); [by left|].
    unfold bind, getNormalStateValue, getNormalStateNode, bind, gets. simpl.
    destruct (findNode _ _) as [node|]; simpl; [|by left].
    right.
    match goal with |- context [_updateAlarmState ?n ?i this] => exists n, i end.
    by destruct (_updateAlarmState _ _ _) as [[[]|e] s].
  - unfold _onNormalStateDataValueChange.
    destruct (negb _); [by left|]. destruct (bool_decide _); [by left|].
    unfold bind. rewrite getInputNodeValue_stored.
    right.
    match goal with |- context [_updateAlarmState ?n ?i this] => exists n, i end.
    by destruct (_updateAlarmState _ _ _) as [[[]|e] s].
Qed.

Lemma invoke_outcome sp c this :
  snd (invoke sp c this) = this \/
  exists n i, snd (invoke sp c this) = snd (_updateAlarmState n i this).
Proof.
  unfold invoke. destruct (resolve _ _) as [[]|]; try by left.
  apply method_outcome.
Qed.

(** X3: the signalled conditions of an alarm only grow.  Whatever methods
    are called on the alarm object, in whatever address spaces and with
    whatever outcome, the conditions signalled before are still there in
    the same order, at most one is added per call, and every added
    condition is named after its flag ("Active" for [true], "Inactive" for
    [false]) and has the empty message. *)
Theorem X3_signalled_append_only (calls : list (AddressSpace * Call)) (this : Alarm) :
  exists evs : list ConditionEvent,
    signalled (snd (invokeAll calls this)) = (signalled this ++ evs)%list /\
    Forall wellFormedEvent evs /\
    length evs <= length calls.
Proof.
  revert this. induction calls as [|[sp c] calls IH]; intros this.
  - exists []. simpl. by rewrite app_nil_r.
  - simpl.
    assert (Hstep : exists evs, signalled (snd (invoke sp c this))
                                = (signalled this ++ evs)%list /\
                                Forall wellFormedEvent evs /\ length evs <= 1).
    { destruct (invoke_outcome sp c this) as [-> | (n & i & ->)].
      - exists []. rewrite app_nil_r. repeat split; [done|simpl; lia].
      - apply _updateAlarmState_signalled. }
    destruct Hstep as (evs1 & H1 & Hw1 & Hl1).
    destruct (invoke sp c this) as [r this1]. simpl in *.
    destruct (IH this1) as (evs2 & H2 & Hw2 & Hl2).
    destruct (invokeAll calls this1) as [rs this2]. simpl in *.
    exists (evs1 ++ evs2)%list.
    split; [by rewrite H2, H1, app_assoc|].
    split; [by apply Forall_app|].
    rewrite length_app. lia.
Qed.

(** X4: as long as every value the comparator is given is known (neither
    null nor undefined), the signalled conditions tell the whole story of
    the active state: the conditions a run of comparator calls adds
    alternate, the first one negating the state the run started in, and
    the state at the end is the start state flipped once per condition.
    (The unknown-value branch breaks this: it can turn the alarm inactive
    without a condition.) *)
Theorem X4_known_values_alternate (pairs : list (Js.Value * Js.Value)) (this : Alarm)
    (Hknown : Forall bothKnown pairs) :
  exists evs : list ConditionEvent,
    signalled (updateAll pairs this) = (signalled this ++ evs)%list /\
    Forall wellFormedEvent evs /\
    alternating (negb (activeState this)) evs /\
    activeState (updateAll pairs this)
      = xorb (activeState this) (Nat.odd (length evs)).
Proof.
  revert this. induction pairs as [|[n i] pairs IH]; intros this.
  - exists []. simpl. rewrite app_nil_r, xorb_false_r. done.
  - apply Forall_cons in Hknown as [[Hn Hi] Hk]. simpl in *.
    destruct (IH Hk (snd (_updateAlarmState n i this)))
      as (evs & Hs & Hw & Ha & Hact).
    rewrite _updateAlarmState_known in * by done.
    destruct (Bool.eqb _ _) eqn:E; simpl in *.
    + exists evs. done.
    + apply Bool.eqb_false_iff in E.
      assert (Hflip : negb (isEqual n i) = negb (activeState this))
        by by destruct (isEqual n i), (activeState this).
      rewrite Hflip in *.
      exists (mkEvent (stateNameOf (negb (activeState this)))
                      (negb (activeState this)) "" :: evs).
      split; [by rewrite Hs, <- app_assoc|].
      split; [constructor; [by split|done]|].
      split; [done|].
      rewrite Hact. simpl length. rewrite Nat.odd_succ, <- Nat.negb_odd.
      by destruct (activeState this), (Nat.odd (length evs)).
Qed.

Lemma X4_witness :
  exists evs : list ConditionEvent,
    signalled (updateAll [(Js.ofZ 5, Js.ofZ 7); (Js.ofZ 5, Js.ofZ 7);
                          (Js.ofZ 5, Js.ofZ 5)] Plant.alarm0)
      = (signalled Plant.alarm0 ++ evs)%list /\
    Forall wellFormedEvent evs /\
    alternating (negb (activeState Plant.alarm0)) evs /\
    activeState (updateAll [(Js.ofZ 5, Js.ofZ 7); (Js.ofZ 5, Js.ofZ 7);
                            (Js.ofZ 5, Js.ofZ 5)] Plant.alarm0)
      = xorb (activeState Plant.alarm0) (Nat.odd (length evs)).
Proof.
  assert (Hknown : Forall bothKnown [(Js.ofZ 5, Js.ofZ 7); (Js.ofZ 5, Js.ofZ 7);
                                     (Js.ofZ 5, Js.ofZ 5)])
    by (repeat constructor).
  exact (X4_known_values_alternate _ Plant.alarm0 Hknown).
Defined.

End ConditionLog.

(** ** What handling a value change leaves alone *)

Section Frame.
Import UAAlarmConditionBase UAOffNormalAlarm_prototype.

Lemma sameWiring_refl a : sameWiring a a.
Proof. done. Qed.

Lemma sameShape_refl sp : sameShape sp sp.
Proof.
  split; [done|]. split; [done|]. intros a.
  destruct (alarms sp !! a); constructor. apply sameWiring_refl.
Qed.

Lemma sameShape_trans sp1 sp2 sp3 :
  sameShape sp1 sp2 -> sameShape sp2 sp3 -> sameShape sp1 sp3.
Proof.
  intros (He1 & Hl1 & Ha1) (He2 & Hl2 & Ha2).
  split; [congruence|]. split; [congruence|]. intros a.
  specialize (Ha1 a). specialize (Ha2 a).
  destruct Ha1 as [x y Hxy|]; inversion Ha2; subst; constructor.
  by eapply sameWiring_trans.
Qed.

Lemma withAlarm_shape a c sp :
  sameShape sp (snd (withAlarm a (fun sp => invoke sp c) sp)).
Proof.
  unfold withAlarm. destruct (alarms sp !! a) as [x|] eqn:Hx; [|apply sameShape_refl].
  pose proof (keepsWiring_invoke sp c x) as Hw.
  destruct (invoke sp c x) as [r x']. simpl in *.
  split; [done|]. split; [done|]. intros b. simpl.
  destruct (decide (a = b)) as [->|Hne].
  - rewrite lookup_insert_eq, Hx. by constructor.
  - rewrite lookup_insert_ne by done.
    destruct (alarms sp !! b); constructor. apply sameWiring_refl.
Qed.

Lemma runListener_shape l dv sp : sameShape sp (snd (runListener l dv sp)).
Proof.
  destruct l; simpl; [| |apply sameShape_refl]; unfold bind;
    match goal with
    | |- context [withAlarm ?a (fun sp => invoke sp ?c) sp] =>
        pose proof (withAlarm_shape a c sp) as Hs;
        by destruct (withAlarm a (fun sp => invoke sp c) sp) as [[r|e] sp']
    end.
Qed.

Lemma emitValueChanged_shape ls e dv sp :
  sameShape sp (snd (emitValueChanged ls e dv sp)).
Proof.
  revert sp. induction ls as [|[e' l] ls IH]; intros sp; [apply sameShape_refl|].
  simpl. unfold bind at 1. destruct (bool_decide (e' = e)).
  - pose proof (runListener_shape l dv sp) as Hs.
    destruct (runListener l dv sp) as [[r|x] sp']; simpl in *; [|done].
    eapply sameShape_trans; [done|apply IH].
  - simpl. apply IH.
Qed.

Lemma valueChanged_shape node dv sp : sameShape sp (snd (valueChanged node dv sp)).
Proof.
  unfold valueChanged.
  apply (emitValueChanged_shape (listeners sp) (OnVariable node) dv
           (set_variables (insert node dv) sp)).
Qed.

Lemma invokeAll_wiring calls this : sameWiring this (snd (invokeAll calls this)).
Proof.
  revert this. induction calls as [|[sp c] calls IH]; intros this; [done|].
  simpl. pose proof (keepsWiring_invoke sp c this) as Hw.
  destruct (invoke sp c this) as [r this1]. specialize (IH this1).
  destruct (invokeAll calls this1) as [rs this2]. simpl in *.
  by eapply sameWiring_trans.
Qed.

(** X5: handling touches nothing but the active state and the signalled
    conditions.  No run of methods changes the prototype, the type
    definition or the two references of the alarm object; and no run of
    value changes, whether its handlers complete or throw, changes the
    event types or the listeners of the address space, adds or removes an
    alarm, or changes the prototype, type or references of one, while the
    node values at the end are exactly the delivered ones written in
    order over the old ones. *)
Theorem X5_handling_changes_only_state_and_log
    (calls : list (AddressSpace * Call)) (changes : list (NodeId * DataValue.t))
    (this : Alarm) (sp : AddressSpace) :
  sameWiring this (snd (invokeAll calls this)) /\
  sameShape sp (snd (notifyAll changes sp)) /\
  variables (snd (notifyAll changes sp)) = writes changes (variables sp).
Proof.
  split; [apply invokeAll_wiring|].
  revert sp. induction changes as [|[node dv] changes IH]; intros sp.
  - split; [apply sameShape_refl|done].
  - simpl. pose proof (valueChanged_shape node dv sp) as Hs.
    pose proof (valueChanged_variables node dv sp) as Hv.
    destruct (valueChanged node dv sp) as [r sp1]. simpl in *.
    destruct (IH sp1) as [Hs' Hv'].
    destruct (notifyAll changes sp1) as [rs sp2]. simpl in *.
    split; [by eapply sameShape_trans|]. by rewrite Hv', Hv.
Qed.

Lemma runListener_ignored_completes l dv sp this :
  alarms sp !! listenerAlarm l = Some this -> proto this = UAOffNormalAlarm ->
  ignored dv -> runListener l dv sp = (Normal tt, sp).
Proof.
  intros Ha Hp Hi.
  rewrite <- (runListener_ignored l dv sp Hi) at 2. apply pair_fst_snd.
  destruct l; simpl in Ha; [| |done].
  - rewrite (runListener_input _ _ _ this) by done.
    by rewrite _onInputDataValueChange_ignored.
  - by rewrite (runListener_normalState _ _ _ this).
Qed.

(** X6: the listeners [instantiate] installs route a value change to the
    alarm only from its own two entities.  In an address space where the
    alarm is wired as [instantiate] leaves it, a value change that the
    handlers ignore, or that is of an entity other than the input and the
    normal-state entity, completes and does nothing but store the value:
    the alarm objects, the listeners and the event types are as before. *)
Theorem X6_other_deliveries_only_store (sp : AddressSpace) (alarmNode inp ns : NodeId)
    (this : Alarm) (node : NodeId) (dataValue : DataValue.t)
    (Hwired : wiredTo alarmNode inp ns this sp)
    (Hquiet : ignored dataValue \/ (node <> inp /\ node <> ns)) :
  valueChanged node dataValue sp
    = (Normal tt, set_variables (insert node dataValue) sp).
Proof.
  destruct Hwired as (Hl & _ & Ha & Hp & _).
  unfold valueChanged. rewrite Hl. unfold installed. cbn [emitValueChanged].
  rewrite (bool_decide_eq_false_2 (OnNormalStateProperty alarmNode = OnVariable node))
    by done.
  destruct Hquiet as [Hi | [Hinp Hns]].
  - assert (Hrun : forall l, listenerAlarm l = alarmNode ->
              runListener l dataValue (set_variables (insert node dataValue) sp)
              = (Normal tt, set_variables (insert node dataValue) sp)).
    { intros l <-. by apply (runListener_ignored_completes _ _ _ this). }
    unfold bind, ret.
    destruct (bool_decide (OnVariable inp = OnVariable node));
      destruct (bool_decide (OnVariable ns = OnVariable node));
      rewrite ?Hrun by done; try done.
    all: rewrite ?Hrun by done; done.
  - rewrite (bool_decide_eq_false_2 (OnVariable inp = OnVariable node)) by congruence.
    by rewrite (bool_decide_eq_false_2 (OnVariable ns = OnVariable node)) by congruence.
Qed.

Lemma X6_witness :
  valueChanged 3%N (Plant.int32 9)
    (addressSpace
       (snd (UAOffNormalAlarm_static.instantiate Plant.base0 "OffNormalAlarmType"
               Js.undefined Plant.heap0)))
  = (Normal tt,
     set_variables (insert 3%N (Plant.int32 9))
       (addressSpace
          (snd (UAOffNormalAlarm_static.instantiate Plant.base0 "OffNormalAlarmType"
                  Js.undefined Plant.heap0)))).
Proof.
  assert (Hquiet : ignored (Plant.int32 9)
                   \/ (3%N <> Plant.inputId /\ 3%N <> Plant.normalId))
    by (right; split; discriminate).
  exact (X6_other_deliveries_only_store _ Plant.alarmId Plant.inputId Plant.normalId
           Plant.alarm0 3%N (Plant.int32 9) plant_wiredTo Hquiet).
Defined.


End Frame.

(** ** A normal-state reference that does not resolve *)

Section DanglingReference.
Import UAAlarmConditionBase UAOffNormalAlarm_prototype.

(** X7: the only way [_onInputDataValueChange] fails is a normal-state
    reference that names no node of the address space: it throws exactly
    when the delivery is not ignored and [findNode] finds nothing, the
    exception is then the assertion of [getNormalStateNode], and the alarm
    object is left as it was.  [getNormalStateValue] fails in exactly the
    same case and never changes the alarm object. *)
Theorem X7_input_handler_fails_only_on_dangling_reference
    (sp : AddressSpace) (dataValue : DataValue.t) (this : Alarm) :
  let outcome := _onInputDataValueChange sp dataValue this in
  (completed outcome = false <->
     ~ ignored dataValue /\ findNode sp (normalState this) = None) /\
  (completed outcome = false ->
     outcome = (Throw (AssertionError "getNormalStateNode "), this)) /\
  (completed (getNormalStateValue sp this) = false <->
     findNode sp (normalState this) = None) /\
  snd (getNormalStateValue sp this) = this.
Proof.
  assert (Hv : getNormalStateValue sp this
               = match findNode sp (normalState this) with
                 | Some node => (Normal (Variant.value (DataValue.value (readValue node))), this)
                 | None => (Throw (AssertionError "getNormalStateNode "), this)
                 end).
  { unfold getNormalStateValue, getNormalStateNode, bind, gets. simpl.
    by destruct (findNode _ _). }
  simpl. split; [|split; [|split]].
  - split.
    + intros Hc. split.
      * intros Hi. by rewrite _onInputDataValueChange_ignored in Hc.
      * revert Hc. unfold _onInputDataValueChange.
        destruct (negb _); [done|]. destruct (bool_decide _); [done|].
        unfold bind. rewrite Hv. destruct (findNode _ _); [|done].
        unfold completed. by rewrite _updateAlarmState_completes.
    + intros [Hi Hn]. unfold _onInputDataValueChange, ignored in *.
      destruct (bool_decide_reflect (DataValue.statusCode dataValue = StatusCodes.Good));
        simpl; [|tauto].
      destruct (bool_decide_reflect
                  (Variant.dataType (DataValue.value dataValue) = DataType.Null));
        [tauto|].
      unfold bind. by rewrite Hv, Hn.
  - unfold _onInputDataValueChange.
    destruct (negb _); [done|]. destruct (bool_decide _); [done|].
    unfold bind. rewrite Hv. destruct (findNode _ _); [|done].
    unfold completed. by rewrite _updateAlarmState_completes.
  - rewrite Hv. by destruct (findNode _ _).
  - rewrite Hv. by destruct (findNode _ _).
Qed.

Lemma X7_witness :
  _onInputDataValueChange Plant.space0 (Plant.int32 7)
    (set_normalState (Some 999%N) Plant.alarm0)
  = (Throw (AssertionError "getNormalStateNode "),
     set_normalState (Some 999%N) Plant.alarm0).
Proof.
  exact (proj1 (proj2 (X7_input_handler_fails_only_on_dangling_reference
                         Plant.space0 (Plant.int32 7)
                         (set_normalState (Some 999%N) Plant.alarm0)))
           eq_refl).
Defined.

End DanglingReference.

(** ** The outcomes of instantiate *)

Section InstantiateCases.
Import UAAlarmConditionBase UAOffNormalAlarm_prototype UAOffNormalAlarm_static.



Lemma bind_Normal {S A B} (m : Method S A) (k : A -> Method S B) s a s1 :
  m s = (Normal a, s1) -> bind m k s = k a s1.
Proof. unfold bind. by intros ->. Qed.






Tactic Notation "bind_step" tactic3(tac) :=
  erewrite bind_Normal by tac;
  unfold set_options; cbn [addressSpace options]; cbv beta.








End InstantiateCases.

(** ** The address spaces an alarm lives in *)

Section Settled.
Import UAAlarmConditionBase UAOffNormalAlarm_prototype UAOffNormalAlarm_static.












End Settled.
